(** * mathlib: Fourier series epicycles

    A shallow embedding of the transform engine ([fft.c]), the spectral
    analyzer and the epicycle reconstructor ([fourier.c]).

    Conventions of the embedding.
    - [double] values are real numbers and [double complex] values are pairs
      of reals: the arithmetic is exact.
    - A C array is a list; [get] reads an element and [upd] writes one in
      place.  Every theorem states the sizes of the arrays it is given, so
      that every access of the modelled code stays within bounds.
    - The array sizes and loop counters of [fft.c] and [fourier.c] are of
      type [size_t] and are natural numbers in the model.  Two computations
      on sizes depend on the width of a machine integer and are modelled
      with it: [1 << s] in [fft], a shift on an [int] of 32 bits that
      overflows from [s = 31], that is for arrays of [2 ^ 31] samples or
      more, and [next_power_of_2], modelled on [w]-bit words with their
      wrap-around.  Every property of the values that the fast path of
      [fft] computes is stated for sizes [n < 2 ^ 31].
    - The real numbers have a single zero.  Where the result of a C
      function depends on the sign of a zero ([carg] on the negative real
      axis and at the origin), the model has the value for a positive zero,
      and the properties below are those that hold for either sign. *)

From Stdlib Require Import Reals Lra Lia ZArith List Bool Arith.
From Stdlib Require Import Permutation Sorted FinFun.
From Stdlib Require Import Strings.Byte.
Import ListNotations.

(** ** Complex numbers (C99 [double complex], exact arithmetic) *)

Module Cplx.

Local Open Scope R_scope.

Definition C : Type := (R * R)%type.

Definition RtoC (x : R) : C := (x, 0).
Definition Ci : C := (0, 1).
Definition C0 : C := RtoC 0.
Definition C1 : C := RtoC 1.

Definition Cadd (a b : C) : C := (fst a + fst b, snd a + snd b).
Definition Csub (a b : C) : C := (fst a - fst b, snd a - snd b).
Definition Cmul (a b : C) : C :=
  (fst a * fst b - snd a * snd b, fst a * snd b + snd a * fst b).
Definition Cconj (a : C) : C := (fst a, - snd a).

(** Mixed operations: a complex value times or over a real one (the real
    operand is a [double] or a converted [size_t]). *)
Definition Cmulr (a : C) (r : R) : C := (fst a * r, snd a * r).
Definition Cdivr (a : C) (r : R) : C := (fst a / r, snd a / r).

(** [cexp], [cabs] and [carg] of <complex.h>. *)
Definition cexp (z : C) : C := (exp (fst z) * cos (snd z), exp (fst z) * sin (snd z)).
Definition cabs (z : C) : R := sqrt (fst z * fst z + snd z * snd z).

(** [carg z] is [atan2 (cimag z) (creal z)]: the angle of [z] with the
    branch cut along the negative real axis.  In C the result on the cut
    and at the origin depends on the sign of the zero operand:
    [atan2 (+0.0, x)] is [pi] and [atan2 (-0.0, x)] is [-pi] for [x < 0],
    so that the values of [carg] range over the closed interval
    [[-pi, pi]].  A real number does not carry that sign: [atan2] below is
    the function on positive zeros. *)
Definition atan2 (y x : R) : R :=
  if Rlt_dec 0 x then atan (y / x)
  else if Rlt_dec x 0 then
         if Rle_dec 0 y then atan (y / x) + PI else atan (y / x) - PI
       else if Rlt_dec 0 y then PI / 2
            else if Rlt_dec y 0 then - (PI / 2) else 0.
Definition carg (z : C) : R := atan2 (snd z) (fst z).

End Cplx.
Export Cplx.

Declare Scope C_scope.
Delimit Scope C_scope with C.
Bind Scope C_scope with C.
Infix "+" := Cadd : C_scope.
Infix "-" := Csub : C_scope.
Infix "*" := Cmul : C_scope.

(** ** Arrays *)

Section Arrays.
Context {A : Type}.

(** [a[i] = v]: a write outside the array leaves the model unchanged. *)
Fixpoint upd (i : nat) (v : A) (a : list A) : list A :=
  match a, i with
  | [], _ => []
  | _ :: t, O => v :: t
  | h :: t, S i' => h :: upd i' v t
  end.
End Arrays.

(** [a[i]] on an array of complex values. *)
Definition get (a : list C) (i : nat) : C := nth i a C0.

(** ** fft.c *)

(** [is_power_of_2]: [&&] does not evaluate [n - 1] when [n] is zero. *)
Definition is_power_of_2 (n : Z) : bool :=
  ((0 <? n) && (Z.land n (n - 1) =? 0))%Z.

(** [next_power_of_2] on a [size_t] of [w] bits.  The decrement and the
    final increment wrap around modulo [2 ^ w]; the shift by 32 is compiled
    only when [SIZE_MAX > 0xFFFFFFFF]. *)
Definition SIZE_MAX (w : Z) : Z := (2 ^ w - 1)%Z.
Definition wrap (w x : Z) : Z := (x mod 2 ^ w)%Z.

Definition next_power_of_2 (w n : Z) : Z :=
  if (n =? 0)%Z then 1%Z
  else
    let n := wrap w (n - 1) in
    let n := Z.lor n (Z.shiftr n 1) in
    let n := Z.lor n (Z.shiftr n 2) in
    let n := Z.lor n (Z.shiftr n 4) in
    let n := Z.lor n (Z.shiftr n 8) in
    let n := Z.lor n (Z.shiftr n 16) in
    let n := if (0xFFFFFFFF <? SIZE_MAX w)%Z then Z.lor n (Z.shiftr n 32) else n in
    wrap w (n + 1).

(** [bit_reverse_copy]: the [while] loop that counts the bits of [n] ... *)
Fixpoint count_bits (fuel temp bits : nat) : nat :=
  match fuel with
  | O => bits
  | S fuel' =>
      if (1 <? temp)%nat then count_bits fuel' (Nat.shiftr temp 1) (S bits)
      else bits
  end.

(** ... the loop over [b] that reverses the low [bits] bits of [i] ... *)
Fixpoint rev_loop (bits rev temp_i : nat) : nat :=
  match bits with
  | O => rev
  | S bits' =>
      rev_loop bits' (Nat.lor (Nat.shiftl rev 1) (Nat.land temp_i 1))
               (Nat.shiftr temp_i 1)
  end.

(** ... and the loop over [i] that scatters the input. *)
Definition bit_reverse_copy (input output : list C) (n : nat) : list C :=
  let bits := count_bits n n 0 in
  fold_left (fun out i => upd (rev_loop bits 0 i) (get input i) out)
            (seq 0 n) output.

(** [dft]: the loop over [j] accumulates into [output[k]]. *)
Definition dft_term (points : list C) (n k j : nat) : C :=
  let angle := (-2 * PI * INR j * INR k / INR n)%R in
  (get points j * cexp (Ci * RtoC angle))%C.

Definition dft_inner (points : list C) (n k : nat) (output : list C) : list C :=
  fold_left (fun out j => upd k (get out k + dft_term points n k j)%C out)
            (seq 0 n) output.

Definition dft_body (points : list C) (n : nat) (output : list C) (k : nat) : list C :=
  let out1 := upd k C0 output in
  let out2 := dft_inner points n k out1 in
  upd k (Cdivr (get out2 k) (INR n)) out2.

Definition dft (points : list C) (n : nat) (output : list C) : list C :=
  fold_left (dft_body points n) (seq 0 n) output.

(** [fft]: one butterfly of the innermost loop; the state is the running
    twiddle factor [w] and the array. *)
Definition butterfly (wm : C) (k half : nat) (st : C * list C) (j : nat)
  : C * list C :=
  let w := fst st in
  let out := snd st in
  let t := (w * get out (k + j + half))%C in
  let u := get out (k + j) in
  let out := upd (k + j) (u + t)%C out in
  let out := upd (k + j + half) (u - t)%C out in
  ((w * wm)%C, out).

Definition fft_block (wm : C) (m k : nat) (out : list C) : list C :=
  snd (fold_left (butterfly wm k (m / 2)) (seq 0 (m / 2)) (C1, out)).

(** [for (k = 0; k < n; k += m)]: at most [fuel] blocks. *)
Fixpoint fft_blocks (fuel : nat) (wm : C) (m n k : nat) (out : list C) : list C :=
  match fuel with
  | O => out
  | S fuel' =>
      if (k <? n)%nat then fft_blocks fuel' wm m n (k + m) (fft_block wm m k out)
      else out
  end.

(** [1 << s]: the literal [1] is an [int], so the shift is done on [int]
    and its result is converted to [size_t].  On an [int] of 32 bits the
    shift is [2 ^ s] for [s <= 30]; from [s = 31] it overflows, which C
    leaves undefined.  The model takes the two's-complement result there
    ([int_wrap]) and converts it to a [size_t] of 64 bits. *)
Definition int_wrap (x : Z) : Z := ((x + 2 ^ 31) mod 2 ^ 32 - 2 ^ 31)%Z.
Definition shl_int (a : Z) (s : nat) : Z := int_wrap (Z.shiftl a (Z.of_nat s)).
Definition size_t_of_int (x : Z) : nat := Z.to_nat (wrap 64 x).

(** One iteration of the loop over [s], with [size_t m = 1 << s]. *)
Definition fft_stage (n : nat) (out : list C) (s : nat) : list C :=
  let m := size_t_of_int (shl_int 1 s) in
  let wm := cexp (Cdivr (RtoC (-2 * PI) * Ci)%C (INR m)) in
  fft_blocks n wm m n 0 out.

Definition normalize (n : nat) (output : list C) : list C :=
  fold_left (fun out i => upd i (Cdivr (get out i) (INR n)) out) (seq 0 n) output.

(** [s <= log2(n)] compares [s] with a real number: [s] runs from 1 to the
    integer part of the logarithm. *)
Definition fft (points : list C) (n : nat) (output : list C) : list C :=
  if negb (is_power_of_2 (Z.of_nat n)) then dft points n output
  else
    let out := bit_reverse_copy points output n in
    let out := fold_left (fft_stage n) (seq 1 (Nat.log2 n)) out in
    normalize n out.

(** [ifft]: the direct inverse sum for sizes that are not powers of two. *)
Definition idft_term (coefficients : list C) (n i k : nat) : C :=
  (get coefficients k
   * cexp (Cdivr (Cmulr (Cmulr (RtoC (2 * PI) * Ci) (INR k)) (INR i)) (INR n)))%C.

Definition idft_body (coefficients : list C) (n : nat) (output : list C) (i : nat)
  : list C :=
  fold_left (fun out k => upd i (get out i + idft_term coefficients n i k)%C out)
            (seq 0 n) (upd i C0 output).

(** [temp] is what [malloc] returned: [None] for a null pointer, which the
    code does not test before it writes to [temp[0]]; the result [None]
    stands for that undefined behaviour. *)
Definition ifft (temp : option (list C)) (coefficients : list C) (n : nat)
           (output : list C) : option (list C) :=
  if negb (is_power_of_2 (Z.of_nat n)) then
    Some (fold_left (idft_body coefficients n) (seq 0 n) output)
  else
    match temp with
    | None => None
    | Some temp =>
        let temp :=
          fold_left (fun tmp i => upd i (Cmulr (Cconj (get coefficients i)) (INR n)) tmp)
                    (seq 0 n) temp in
        let out := fft temp n output in
        Some (fold_left (fun o i => upd i (Cconj (get o i)) o) (seq 0 n) out)
    end.

(** ** fourier.c *)

Record FourierCoefficient : Type := mkCoeff
  { amplitude : R; frequency : R; phase : R }.

(** A null [coefficients] pointer is [None]. *)
Record FourierResult : Type := mkResult
  { coefficients : option (list FourierCoefficient); count : nat }.

Definition compare_coeffs_by_amplitude (ca cb : FourierCoefficient) : Z :=
  if Rgt_dec (amplitude ca) (amplitude cb) then (-1)%Z
  else if Rlt_dec (amplitude ca) (amplitude cb) then 1%Z
  else 0%Z.

(** What the three calls of [malloc] in [fourier_analyze] return: the
    buffer for the spectrum with its initial contents (or a null pointer),
    and whether the two coefficient arrays could be allocated (both are
    written in full before they are read). *)
Record Allocations : Type := mkAllocations
  { fft_output_buf : option (list C);
    all_coeffs_ok : bool;
    result_ok : bool }.

(** The body of the extraction loop for index [i]. *)
Definition extract_coeff (fft_output : list C) (n_points i : nat)
  : FourierCoefficient :=
  {| amplitude := cabs (get fft_output i);
     phase := carg (get fft_output i);
     frequency := if (i <=? n_points / 2)%nat then INR i
                  else (INR i - INR n_points)%R |}.

Definition empty_result : FourierResult :=
  {| coefficients := None; count := 0 |}.

Section Analyzer.
(** [qsort] of <stdlib.h>, on an array of coefficients. *)
Variable qsort :
  (FourierCoefficient -> FourierCoefficient -> Z) ->
  list FourierCoefficient -> list FourierCoefficient.

Definition fourier_analyze (heap : Allocations) (points : list C)
           (n_points n_coeffs : nat) : FourierResult :=
  let result := empty_result in
  if ((n_points =? 0) || (n_coeffs =? 0))%nat then result
  else
    let n_coeffs := if (n_points <? n_coeffs)%nat then n_points else n_coeffs in
    match fft_output_buf heap with
    | None => result
    | Some fft_output =>
        let fft_output := fft points n_points fft_output in
        if negb (all_coeffs_ok heap) then result
        else
          let all_coeffs :=
            map (extract_coeff fft_output n_points) (seq 0 n_points) in
          let all_coeffs := qsort compare_coeffs_by_amplitude all_coeffs in
          if negb (result_ok heap) then result
          else {| coefficients := Some (firstn n_coeffs all_coeffs);
                  count := n_coeffs |}
    end.
End Analyzer.

(** [epicycles_at_time]: [result] and [positions] may be null pointers; the
    function returns the tip together with the [positions] array as it
    leaves it. *)
Definition coeff0 : FourierCoefficient :=
  {| amplitude := 0; frequency := 0; phase := 0 |}.

Definition epicycle_step (cs : list FourierCoefficient) (t : R)
           (st : C * option (list C)) (i : nat) : C * option (list C) :=
  let cumulative := fst st in
  let positions := snd st in
  let amplitude := amplitude (nth i cs coeff0) in
  let frequency := frequency (nth i cs coeff0) in
  let phase := phase (nth i cs coeff0) in
  let contribution :=
    (RtoC amplitude * cexp (Ci * RtoC (phase + t * frequency)%R))%C in
  let cumulative := (cumulative + contribution)%C in
  (cumulative, option_map (upd (i + 1) cumulative) positions).

Definition epicycles_at_time (result : option FourierResult) (t : R)
           (positions : option (list C)) : C * option (list C) :=
  let empty := (C0, option_map (upd 0 C0) positions) in
  match result with
  | None => empty
  | Some r =>
      match coefficients r with
      | None => empty
      | Some cs =>
          if (count r =? 0)%nat then empty
          else
            fold_left (epicycle_step cs t) (seq 0 (count r))
                      (C0, option_map (upd 0 C0) positions)
      end
  end.

(** ** The vocabulary of the specification *)

(** [Csum f n] is the sum of [f 0], ..., [f (n - 1)]. *)
Fixpoint Csum (f : nat -> C) (n : nat) : C :=
  match n with
  | O => C0
  | S n' => (Csum f n' + f n')%C
  end.

Fixpoint Cpow (z : C) (n : nat) : C :=
  match n with
  | O => C1
  | S n' => (Cpow z n' * z)%C
  end.

(** [expi theta] is [exp (i * theta)]. *)
Definition expi (theta : R) : C := (cos theta, sin theta).

(** The normalized forward transform of the specification:
    [(1/n) * sum_j points[j] * exp (-2 pi i j k / n)]. *)
Definition dft_formula (points : list C) (n k : nat) : C :=
  (RtoC (1 / INR n)
   * Csum (fun j => get points j * expi (-2 * PI * INR j * INR k / INR n)%R) n)%C.

(** The inverse transform of the specification, without normalization:
    [sum_k coefficients[k] * exp (2 pi i k i / n)]. *)
Definition idft_formula (coefficients : list C) (n i : nat) : C :=
  Csum (fun k => get coefficients k * expi (2 * PI * INR k * INR i / INR n)%R)%C n.

(** [omega m e] is [exp (-2 pi i e / m)], the twiddle factor of a
    transform of size [m]; [strided_dft x m stride off j] is entry [j] of
    the transform, not normalized, of the [m] samples
    [x[off], x[off + stride], x[off + 2 stride], ...]. *)
Definition omega (m e : nat) : C := expi (-2 * PI * INR e / INR m)%R.

Definition strided_dft (x : list C) (m stride off j : nat) : C :=
  Csum (fun l => get x (l * stride + off) * omega m (j * l))%C m.

(** What one stage of butterflies on blocks of [m] entries leaves at index
    [i] of an array whose contents were [f]. *)
Definition stage_value (m : nat) (wm : C) (f : nat -> C) (i : nat) : C :=
  let j := (i mod m)%nat in
  let half := (m / 2)%nat in
  if (j <? half)%nat then (f i + Cpow wm j * f (i + half)%nat)%C
  else (f (i - half)%nat - Cpow wm (j - half) * f i)%C.

(** The reversal of the low [q] bits, as [bit_reverse_copy] computes it. *)
Definition bitrev (q i : nat) : nat := rev_loop q 0 i.

(** [smeared x y L]: bit [i] of [y] is set exactly when one of the [L]
    bits of [x] from position [i] upwards is set. *)
Definition smeared (x y L : Z) : Prop :=
  forall i, (0 <= i)%Z ->
    (Z.testbit y i = true
     <-> exists d, (0 <= d < L)%Z /\ Z.testbit x (i + d) = true).

(** The centered frequency index of the specification. *)
Definition centered_frequency (n i : nat) : Z :=
  if (i <=? n / 2)%nat then Z.of_nat i else (Z.of_nat i - Z.of_nat n)%Z.

(** The contribution of one coefficient at time [t], and the partial sums
    of the first [k] contributions. *)
Definition contribution (c : FourierCoefficient) (t : R) : C :=
  (RtoC (amplitude c) * expi (phase c + t * frequency c)%R)%C.

Definition partial_sum (cs : list FourierCoefficient) (t : R) (k : nat) : C :=
  Csum (fun i => contribution (nth i cs coeff0) t) k.

(** The representation invariant of a result: a null array has count zero,
    and otherwise the array holds [count] coefficients.  Every result of
    [fourier_analyze] satisfies it. *)
Definition result_wf (r : FourierResult) : Prop :=
  match coefficients r with
  | None => count r = O
  | Some cs => length cs = count r
  end.

Definition coeffs_of (r : FourierResult) : list FourierCoefficient :=
  match coefficients r with
  | None => []
  | Some cs => cs
  end.

(** A sorting function that meets the contract of [qsort]: insertion sort
    driven by the comparison function. *)
Fixpoint insert_by {A : Type} (cmp : A -> A -> Z) (x : A) (l : list A) : list A :=
  match l with
  | [] => [x]
  | y :: t => if (cmp x y <=? 0)%Z then x :: l else y :: insert_by cmp x t
  end.

Definition insertion_sort {A : Type} (cmp : A -> A -> Z) (l : list A) : list A :=
  fold_right (insert_by cmp) [] l.

(** ** The rest of the library and its callers *)

(** [fourier_result_free]: [result] may be a null pointer.  The function
    returns the structure as it leaves it and whether it called [free] on
    the coefficient array. *)
Definition fourier_result_free (result : option FourierResult)
  : option FourierResult * bool :=
  match result with
  | None => (None, false)
  | Some r =>
      match coefficients r with
      | None => (Some r, false)
      | Some _ => (Some {| coefficients := None; count := 0 |}, true)
      end
  end.

(** The inline utilities of [mathlib.h]. *)
Definition complex_abs (z : C) : R := cabs z.
Definition complex_arg (z : C) : R := carg z.
Definition complex_from_polar (r theta : R) : C :=
  (RtoC r * cexp (Ci * RtoC theta))%C.

(** The analysis step of [init_painting] (and of [main]): the number of
    epicycles is limited to half the number of points before the call. *)
Definition EPICYCLES_PER_PAINTING : nat := 150.

Definition limit_epicycles (n_epicycles n_points : nat) : nat :=
  let max_epicycles := (n_points / 2)%nat in
  if (max_epicycles <? n_epicycles)%nat then max_epicycles else n_epicycles.

Definition init_painting_fourier
           (qsort : (FourierCoefficient -> FourierCoefficient -> Z) ->
                    list FourierCoefficient -> list FourierCoefficient)
           (heap : Allocations) (points : list C) (n_points : nat)
  : FourierResult :=
  let n_epicycles := limit_epicycles EPICYCLES_PER_PAINTING n_points in
  fourier_analyze qsort heap points n_points n_epicycles.

(** ** path_loader.c *)

(** A file is the list of its bytes, read from the front.
    [fread (ptr, size, 1, file)] returns 1 when [size] bytes could be read
    and 0 otherwise. *)
Definition fread (size : nat) (file : list byte) : option (list byte * list byte) :=
  if (size <=? length file)%nat then Some (firstn size file, skipn size file)
  else None.

(** [fgets (line, size, file)] reads bytes up to and including a newline,
    at most [size - 1] of them, and returns a null pointer at the end of the
    file. *)
Fixpoint fgets_line (room : nat) (file : list byte) : list byte * list byte :=
  match room, file with
  | O, _ => ([], file)
  | _, [] => ([], [])
  | S room', c :: rest =>
      if Byte.eqb c "010"%byte then ([c], rest)
      else let (line, rest') := fgets_line room' rest in (c :: line, rest')
  end.

Definition fgets (size : nat) (file : list byte) : option (list byte * list byte) :=
  match file with
  | [] => None
  | _ => Some (fgets_line (size - 1) file)
  end.

(** [line[0] != '\n' && line[0] != '#'] *)
Definition is_data_line (line : list byte) : bool :=
  let c := hd "000"%byte line in
  negb (Byte.eqb c "010"%byte) && negb (Byte.eqb c "#"%byte).

Section PathLoader.
(** The value of the four bytes read into a [uint32_t] and of the eight
    bytes read into a [double], in the representation of the platform, and
    [sscanf (line, "%lf,%lf", &real, &imag)] when it converts both numbers. *)
Variable uint32_of_bytes : list byte -> nat.
Variable double_of_bytes : list byte -> R.
Variable sscanf_point : list byte -> option (R * R).

(** The reading loop of [load_path_binary], with [todo] points left to read
    from index [i] on; [None] when a read fails. *)
Fixpoint read_points (todo i : nat) (file : list byte) (points : list C)
  : option (list C) :=
  match todo with
  | O => Some points
  | S todo' =>
      match fread 8 file with
      | None => None
      | Some (real, file1) =>
          match fread 8 file1 with
          | None => None
          | Some (imag, file2) =>
              read_points todo' (S i) file2
                (upd i (RtoC (double_of_bytes real)
                        + Ci * RtoC (double_of_bytes imag))%C points)
          end
      end
  end.

(** [load_path_binary]: [file] is [None] when the file cannot be opened and
    [buffer] is what [malloc] returns.  The result is the array together
    with the value stored in [*n_points], or [None] for a null pointer. *)
Definition load_path_binary (file : option (list byte)) (buffer : option (list C))
  : option (list C * nat) :=
  match file with
  | None => None
  | Some file =>
      match fread 4 file with
      | None => None
      | Some (count_bytes, file1) =>
          let count := uint32_of_bytes count_bytes in
          if (count =? 0)%nat then None
          else
            match buffer with
            | None => None
            | Some points =>
                match read_points count 0 file1 points with
                | None => None
                | Some points => Some (points, count)
                end
            end
      end
  end.

(** [load_path_text]: the loop that counts the lines. *)
Fixpoint count_lines (fuel : nat) (file : list byte) (count : nat) : nat :=
  match fuel with
  | O => count
  | S fuel' =>
      match fgets 256 file with
      | None => count
      | Some (line, rest) =>
          count_lines fuel' rest (if is_data_line line then S count else count)
      end
  end.

(** The loop that reads the points: [fgets] is called before [i < count]
    is tested. *)
Fixpoint read_lines (fuel : nat) (file : list byte) (i count : nat)
         (points : list C) : nat * list C :=
  match fuel with
  | O => (i, points)
  | S fuel' =>
      match fgets 256 file with
      | None => (i, points)
      | Some (line, rest) =>
          if (i <? count)%nat then
            if negb (is_data_line line) then read_lines fuel' rest i count points
            else
              match sscanf_point line with
              | None => read_lines fuel' rest i count points
              | Some (real, imag) =>
                  read_lines fuel' rest (S i) count
                    (upd i (RtoC real + Ci * RtoC imag)%C points)
              end
          else (i, points)
      end
  end.

(** Every call of [fgets] consumes a byte: the length of the file bounds the
    number of iterations of both loops. *)
Definition load_path_text (file : option (list byte)) (buffer : option (list C))
  : option (list C * nat) :=
  match file with
  | None => None
  | Some file =>
      let count := count_lines (length file) file 0 in
      if (count =? 0)%nat then None
      else
        match buffer with
        | None => None
        | Some points =>
            let (i, points) := read_lines (length file) file 0 count points in
            Some (points, i)
        end
  end.

(** The lines of a file as [fgets] delivers them, and the points that the
    data lines among them give. *)
Fixpoint file_lines (fuel : nat) (file : list byte) : list (list byte) :=
  match fuel with
  | O => []
  | S fuel' =>
      match fgets 256 file with
      | None => []
      | Some (line, rest) => line :: file_lines fuel' rest
      end
  end.

Definition parsed_points (lines : list (list byte)) : list C :=
  flat_map (fun line => match sscanf_point line with
                        | Some p => [p]
                        | None => []
                        end)
           (filter is_data_line lines).
End PathLoader.

(** A little-endian reading of a [uint32_t]. *)
Definition le_uint32 (bytes : list byte) : nat :=
  fold_right (fun b acc => (Byte.to_nat b + 256 * acc)%nat) O bytes.

(** The energy of a sequence, [sum_j |x[j]|^2], and the sum of a list of
    real numbers. *)
Definition energy (l : list C) : R :=
  fold_right (fun z acc => (cabs z * cabs z + acc)%R) 0%R l.

Definition Rsum_list (l : list R) : R := fold_right Rplus 0%R l.

(** The sum of a list of complex numbers. *)
Definition Csum_list (l : list C) : C := fold_right Cadd C0 l.

(** * Properties *)

(** ** Complex arithmetic *)

Lemma Ceq (a b : C) : fst a = fst b -> snd a = snd b -> a = b.
Proof. destruct a, b; simpl; intros; subst; reflexivity. Qed.

Ltac cunfold :=
  unfold C1, C0, Ci, RtoC, Cadd, Csub, Cmul, Cconj, Cmulr, Cdivr, expi in *;
  simpl fst in *; simpl snd in *.

Ltac cring := intros; apply Ceq; cunfold; simpl; ring.

Lemma Cadd_0_l z : (C0 + z)%C = z.
Proof. cring. Qed.

Lemma Cadd_0_r z : (z + C0)%C = z.
Proof. cring. Qed.

Lemma Cadd_comm a b : (a + b)%C = (b + a)%C.
Proof. cring. Qed.

Lemma Cadd_assoc a b c : (a + (b + c))%C = (a + b + c)%C.
Proof. cring. Qed.

Lemma Cmul_comm a b : (a * b)%C = (b * a)%C.
Proof. cring. Qed.

Lemma Cmul_assoc a b c : (a * (b * c))%C = (a * b * c)%C.
Proof. cring. Qed.

Lemma Cmul_1_l z : (C1 * z)%C = z.
Proof. cring. Qed.

Lemma Cmul_1_r z : (z * C1)%C = z.
Proof. cring. Qed.

Lemma Cmul_0_l z : (C0 * z)%C = C0.
Proof. cring. Qed.

Lemma Cmul_0_r z : (z * C0)%C = C0.
Proof. cring. Qed.

Lemma Cmul_add_distr_l a b c : (a * (b + c))%C = (a * b + a * c)%C.
Proof. cring. Qed.

Lemma Cmul_add_distr_r a b c : ((a + b) * c)%C = (a * c + b * c)%C.
Proof. cring. Qed.

(** [cexp] of a purely imaginary argument. *)
Lemma cexp_imag theta : cexp (Ci * RtoC theta)%C = expi theta.
Proof.
  unfold cexp; cunfold.
  replace (0 * theta - 1 * 0)%R with 0%R by ring.
  replace (0 * 0 + 1 * theta)%R with theta by ring.
  rewrite exp_0. apply Ceq; simpl; ring.
Qed.

Lemma expi_plus a b : expi (a + b) = (expi a * expi b)%C.
Proof.
  unfold expi, Cmul; simpl. rewrite cos_plus, sin_plus.
  apply Ceq; simpl; ring.
Qed.

Lemma expi_0 : expi 0 = C1.
Proof. unfold expi, C1, RtoC. now rewrite cos_0, sin_0. Qed.

Lemma Cpow_expi theta n : Cpow (expi theta) n = expi (INR n * theta).
Proof.
  induction n.
  - simpl. rewrite Rmult_0_l. symmetry; apply expi_0.
  - rewrite S_INR. simpl Cpow. rewrite IHn, <- expi_plus. f_equal. ring.
Qed.

(** ** Arrays *)

Section ArrayFacts.
Context {A : Type}.

Lemma length_upd i (v : A) a : length (upd i v a) = length a.
Proof. revert i; induction a; destruct i; simpl; auto. Qed.

Lemma nth_upd_eq d i (v : A) a : (i < length a)%nat -> nth i (upd i v a) d = v.
Proof.
  revert i; induction a; destruct i; simpl; intros; try lia; auto.
  apply IHa; lia.
Qed.

Lemma nth_upd_neq d i j (v : A) a : i <> j -> nth j (upd i v a) d = nth j a d.
Proof.
  revert i j; induction a; destruct i, j; simpl; intros; try congruence; auto.
Qed.
End ArrayFacts.

Lemma get_upd_eq i v a : (i < length a)%nat -> get (upd i v a) i = v.
Proof. apply nth_upd_eq. Qed.

Lemma get_upd_neq i j v a : i <> j -> get (upd i v a) j = get a j.
Proof. apply nth_upd_neq. Qed.

Lemma get_upd i j v a :
  (i < length a)%nat -> get (upd i v a) j = if (i =? j)%nat then v else get a j.
Proof.
  intros H. destruct (Nat.eqb_spec i j).
  - subst. now apply get_upd_eq.
  - now apply get_upd_neq.
Qed.

(** Two arrays of the same length with the same elements are equal. *)
Lemma get_ext (a b : list C) :
  length a = length b -> (forall i, (i < length a)%nat -> get a i = get b i) -> a = b.
Proof.
  intros Hl H. apply (nth_ext a b C0 C0 Hl). exact H.
Qed.

(** ** The spectral analyzer: coefficients *)

Lemma extract_coeff_frequency fft_output n i :
  frequency (extract_coeff fft_output n i) = IZR (centered_frequency n i).
Proof.
  unfold extract_coeff, centered_frequency; cbn [frequency].
  destruct (i <=? n / 2)%nat.
  - apply INR_IZR_INZ.
  - now rewrite minus_IZR, <- !INR_IZR_INZ.
Qed.

Lemma cabs_nonneg z : (0 <= cabs z)%R.
Proof. apply sqrt_pos. Qed.

(** ** [cabs] and [carg] are the polar coordinates *)

Lemma sqrt_scaled x t :
  (x <> 0)%R -> sqrt (x * x + (t * x) * (t * x)) = (Rabs x * sqrt (1 + t²))%R.
Proof.
  intros Hx.
  replace (x * x + t * x * (t * x))%R with (x² * (1 + t²))%R by (unfold Rsqr; ring).
  rewrite sqrt_mult; [| apply Rle_0_sqr | pose proof (Rle_0_sqr t); lra].
  now rewrite sqrt_Rsqr_abs.
Qed.

Lemma atan_polar t :
  (sqrt (1 + t²) * cos (atan t) = 1 /\ sqrt (1 + t²) * sin (atan t) = t)%R.
Proof.
  assert (Hpos : (0 < sqrt (1 + t²))%R).
  { apply sqrt_lt_R0. pose proof (Rle_0_sqr t). lra. }
  rewrite cos_atan, sin_atan. split; field; lra.
Qed.

Lemma atan2_polar y x :
  (sqrt (x * x + y * y) * cos (atan2 y x) = x
   /\ sqrt (x * x + y * y) * sin (atan2 y x) = y)%R.
Proof.
  assert (Hsq : (x <> 0 ->
                 sqrt (x * x + y * y) = Rabs x * sqrt (1 + (y / x)²))%R).
  { intros Hx. rewrite <- sqrt_scaled by exact Hx. f_equal. field. exact Hx. }
  destruct (atan_polar (y / x)) as [Hc Hs].
  set (t := (y / x)%R) in *. set (r := sqrt (1 + t²)) in *.
  unfold atan2. fold t.
  destruct (Rlt_dec 0 x) as [Hx | Hx]; [|destruct (Rlt_dec x 0) as [Hx' | Hx']].
  - rewrite Hsq, Rabs_right by lra.
    assert (Hy : (y = x * t)%R) by (unfold t; field; lra).
    split; nra.
  - rewrite Hsq, Rabs_left by lra.
    assert (Hy : (y = x * t)%R) by (unfold t; field; lra).
    destruct (Rle_dec 0 y).
    + rewrite neg_cos, neg_sin. split; nra.
    + rewrite cos_minus, sin_minus, cos_PI, sin_PI. split; nra.
  - assert (x = 0)%R by lra. subst x.
    replace (0 * 0 + y * y)%R with (y²)%R by (unfold Rsqr; ring).
    rewrite sqrt_Rsqr_abs.
    destruct (Rlt_dec 0 y) as [Hy | Hy]; [|destruct (Rlt_dec y 0) as [Hy' | Hy']].
    + rewrite cos_PI2, sin_PI2, Rabs_right by lra. split; ring.
    + rewrite cos_neg, sin_neg, cos_PI2, sin_PI2, Rabs_left by lra. split; ring.
    + assert (y = 0)%R by lra. subst y.
      rewrite cos_0, sin_0, Rabs_R0. split; ring.
Qed.

(** Every complex number is [cabs z * exp (i * carg z)]. *)
Lemma carg_polar z : (RtoC (cabs z) * expi (carg z))%C = z.
Proof.
  destruct z as [x y]. unfold cabs, carg. cbn [fst snd].
  destruct (atan2_polar y x) as [Hc Hs].
  apply Ceq; cunfold; cbn [fst snd]; rewrite ?Rmult_0_l; lra.
Qed.

Lemma In_firstn {A : Type} (x : A) n l : In x (firstn n l) -> In x l.
Proof.
  intros H. rewrite <- (firstn_skipn n l). apply in_or_app. now left.
Qed.

(** What a successful analysis returns. *)
Lemma fourier_analyze_some qsort heap points n k cs :
  coefficients (fourier_analyze qsort heap points n k) = Some cs ->
  exists buf,
    fft_output_buf heap = Some buf
    /\ n <> O /\ k <> O
    /\ count (fourier_analyze qsort heap points n k) = Nat.min k n
    /\ cs = firstn (Nat.min k n)
              (qsort compare_coeffs_by_amplitude
                 (map (extract_coeff (fft points n buf) n) (seq 0 n))).
Proof.
  unfold fourier_analyze.
  destruct (Nat.eqb_spec n 0); [discriminate|].
  destruct (Nat.eqb_spec k 0); [discriminate|]. simpl orb. cbv iota.
  destruct (fft_output_buf heap) as [buf|]; [|discriminate].
  destruct (all_coeffs_ok heap); [|discriminate].
  destruct (result_ok heap); [|discriminate]. simpl.
  assert (Hm : (if (n <? k)%nat then n else k) = Nat.min k n).
  { destruct (Nat.ltb_spec n k); lia. }
  rewrite Hm. intros [= <-]. exists buf. auto.
Qed.

(** On the branch cut the two values that [carg] takes in C, [pi] and
    [-pi], are angles of the same point: [carg_polar] holds for either. *)
Lemma expi_neg_PI : expi (- PI) = expi PI.
Proof.
  unfold expi. rewrite cos_neg, sin_neg, sin_PI. f_equal. lra.
Qed.

(** What a successful analysis is, as an equation. *)
Lemma fourier_analyze_success qsort heap points n k buf :
  (1 <= n)%nat -> (1 <= k)%nat ->
  fft_output_buf heap = Some buf ->
  all_coeffs_ok heap = true -> result_ok heap = true ->
  fourier_analyze qsort heap points n k
  = {| coefficients :=
         Some (firstn (Nat.min k n)
                 (qsort compare_coeffs_by_amplitude
                    (map (extract_coeff (fft points n buf) n) (seq 0 n))));
       count := Nat.min k n |}.
Proof.
  intros Hn Hk Hbuf Hall Hres. unfold fourier_analyze.
  destruct (Nat.eqb_spec n 0); [lia|]. destruct (Nat.eqb_spec k 0); [lia|].
  simpl orb. cbv iota. rewrite Hbuf, Hall, Hres. simpl negb. cbv iota.
  replace (if (n <? k)%nat then n else k) with (Nat.min k n)
    by (destruct (Nat.ltb_spec n k); lia).
  reflexivity.
Qed.

(** C4. In a successful analysis of [n >= 1] points every coefficient that
    [fourier_analyze] returns is the one extracted from a spectrum index
    [i < n] (amplitude and phase are those of [spectrum[i]]), and the
    frequency it stores is the centered frequency index of that [i]: [i]
    when [i <= n / 2] and [i - n] otherwise.  When all [n] coefficients are
    requested, the coefficient of every index [i] is among those returned.
    For [n = 8], index 5 gives -3, index 4 gives 4 and index 0 gives 0. *)
Theorem frequency_is_centered qsort heap points n k buf :
  (forall cmp l, Permutation l (qsort cmp l)) ->
  (1 <= n)%nat -> (1 <= k)%nat ->
  fft_output_buf heap = Some buf ->
  all_coeffs_ok heap = true -> result_ok heap = true ->
  exists cs,
    coefficients (fourier_analyze qsort heap points n k) = Some cs
    /\ (forall c, In c cs ->
          exists i, (i < n)%nat
            /\ c = extract_coeff (fft points n buf) n i
            /\ frequency c = IZR (centered_frequency n i)
            /\ ((i <= n / 2)%nat -> frequency c = INR i)
            /\ ((n / 2 < i)%nat -> frequency c = (INR i - INR n)%R))
    /\ ((n <= k)%nat ->
        forall i, (i < n)%nat ->
          exists c, In c cs
            /\ c = extract_coeff (fft points n buf) n i
            /\ frequency c = IZR (centered_frequency n i))
    /\ (forall i, (i <= n / 2)%nat -> centered_frequency n i = Z.of_nat i)
    /\ (forall i, (n / 2 < i)%nat ->
          centered_frequency n i = (Z.of_nat i - Z.of_nat n)%Z)
    /\ centered_frequency 8 5 = (-3)%Z
    /\ centered_frequency 8 4 = 4%Z
    /\ centered_frequency 8 0 = 0%Z.
Proof.
  intros Hperm Hn Hk Hbuf Hall Hres.
  rewrite (fourier_analyze_success qsort heap points n k buf) by auto.
  cbn [coefficients]. eexists. split; [reflexivity|].
  set (all := map (extract_coeff (fft points n buf) n) (seq 0 n)).
  split; [|split].
  - intros c Hin. apply In_firstn in Hin.
    apply (Permutation_in _ (Permutation_sym (Hperm _ _))) in Hin.
    apply in_map_iff in Hin. destruct Hin as (i & <- & Hi). apply in_seq in Hi.
    exists i. split; [lia|]. split; [reflexivity|].
    split; [apply extract_coeff_frequency|].
    unfold extract_coeff; cbn [frequency].
    split; intros H; [apply Nat.leb_le in H | apply Nat.leb_gt in H];
      now rewrite H.
  - intros Hnk i Hi. exists (extract_coeff (fft points n buf) n i).
    split; [|split; [reflexivity | apply extract_coeff_frequency]].
    rewrite firstn_all2.
    + apply (Permutation_in _ (Hperm _ all)). unfold all.
      apply in_map, in_seq. lia.
    + rewrite <- (Permutation_length (Hperm _ all)). unfold all.
      rewrite length_map, length_seq. lia.
  - unfold centered_frequency.
    split; [intros i H; apply Nat.leb_le in H; now rewrite H|].
    split; [intros i H; apply Nat.leb_gt in H; now rewrite H|].
    repeat split.
Qed.

(** ** Sorting *)

Lemma insert_by_perm {A : Type} (cmp : A -> A -> Z) x l :
  Permutation (x :: l) (insert_by cmp x l).
Proof.
  induction l as [|y t IH]; simpl; [reflexivity|].
  destruct (cmp x y <=? 0)%Z; [reflexivity|].
  rewrite perm_swap. now constructor.
Qed.

Lemma insertion_sort_perm {A : Type} (cmp : A -> A -> Z) l :
  Permutation l (insertion_sort cmp l).
Proof.
  induction l as [|x t IH]; simpl; [constructor|].
  rewrite <- insert_by_perm. now constructor.
Qed.

Lemma insert_by_sorted {A : Type} (cmp : A -> A -> Z) x l :
  (forall a b, (0 < cmp a b)%Z -> (cmp b a <= 0)%Z) ->
  Sorted (fun a b => (cmp a b <= 0)%Z) l ->
  Sorted (fun a b => (cmp a b <= 0)%Z) (insert_by cmp x l).
Proof.
  intros Htot. induction 1 as [|y t Hs IH Hhd]; simpl.
  - repeat constructor.
  - destruct (Z.leb_spec (cmp x y) 0) as [Hle | Hgt].
    + repeat constructor; assumption.
    + constructor; [exact IH|].
      destruct Hhd as [|z t' Hyz]; simpl.
      * constructor. now apply Htot.
      * destruct (cmp x z <=? 0)%Z; constructor; [now apply Htot | exact Hyz].
Qed.

Lemma insertion_sort_sorted {A : Type} (cmp : A -> A -> Z) l :
  (forall a b, (0 < cmp a b)%Z -> (cmp b a <= 0)%Z) ->
  Sorted (fun a b => (cmp a b <= 0)%Z) (insertion_sort cmp l).
Proof.
  intros Htot. induction l; simpl; [constructor|].
  now apply insert_by_sorted.
Qed.

Lemma compare_coeffs_le ca cb :
  (compare_coeffs_by_amplitude ca cb <= 0)%Z <-> (amplitude ca >= amplitude cb)%R.
Proof.
  unfold compare_coeffs_by_amplitude.
  destruct (Rgt_dec (amplitude ca) (amplitude cb)); [split; [lra | lia]|].
  destruct (Rlt_dec (amplitude ca) (amplitude cb)); split; try lra; lia.
Qed.

Lemma compare_coeffs_total ca cb :
  (0 < compare_coeffs_by_amplitude ca cb)%Z ->
  (compare_coeffs_by_amplitude cb ca <= 0)%Z.
Proof.
  intros H. apply compare_coeffs_le.
  destruct (Rge_dec (amplitude cb) (amplitude ca)) as [|Hn]; [assumption|].
  assert (compare_coeffs_by_amplitude ca cb <= 0)%Z by (apply compare_coeffs_le; lra).
  lia.
Qed.

Lemma Sorted_map_impl {A B : Type} (R : A -> A -> Prop) (R' : B -> B -> Prop)
      (f : A -> B) l :
  (forall a b, R a b -> R' (f a) (f b)) -> Sorted R l -> Sorted R' (map f l).
Proof.
  intros HR. induction 1 as [|x t Hs IH Hhd]; simpl; constructor; [exact IH|].
  destruct Hhd; simpl; constructor. now apply HR.
Qed.

Lemma StronglySorted_app_inv {A : Type} (R : A -> A -> Prop) l1 l2 :
  StronglySorted R (l1 ++ l2) ->
  StronglySorted R l1 /\ (forall a b, In a l1 -> In b l2 -> R a b).
Proof.
  induction l1 as [|x t IH]; simpl; intros H.
  - split; [constructor | intros ? ? []].
  - inversion H as [|? ? Hs Hall]; subst.
    destruct (IH Hs) as [Ht Hcross]. split.
    + constructor; [exact Ht|].
      rewrite Forall_forall in *. intros y Hy. apply Hall, in_or_app. now left.
    + intros a b [<- | Ha] Hb.
      * rewrite Forall_forall in Hall. apply Hall, in_or_app. now right.
      * now apply Hcross.
Qed.

Lemma Rge_transitive : Relations_1.Transitive Rge.
Proof. intros x y z. apply Rge_trans. Qed.

(** ** The spectral analyzer: ranking and failures *)

(** C5. When the three allocations succeed, [fourier_analyze] on [n >= 1]
    points and a requested count [k >= 1] returns exactly [min k n]
    coefficients, in non-increasing order of amplitude; their amplitudes
    are the [min k n] largest of the [n] amplitudes of the spectrum: the
    amplitudes of the spectrum are those returned together with a
    remainder none of which exceeds a returned one. *)
Theorem analyze_ranking qsort heap points n k buf :
  (forall cmp l, Permutation l (qsort cmp l)) ->
  (forall l, Sorted (fun a b => (compare_coeffs_by_amplitude a b <= 0)%Z)
               (qsort compare_coeffs_by_amplitude l)) ->
  (1 <= n)%nat -> (1 <= k)%nat ->
  fft_output_buf heap = Some buf ->
  all_coeffs_ok heap = true ->
  result_ok heap = true ->
  exists cs rest,
    coefficients (fourier_analyze qsort heap points n k) = Some cs
    /\ count (fourier_analyze qsort heap points n k) = Nat.min k n
    /\ length cs = Nat.min k n
    /\ StronglySorted Rge (map amplitude cs)
    /\ Permutation (map (fun i => cabs (get (fft points n buf) i)) (seq 0 n))
                   (map amplitude cs ++ rest)
    /\ (forall a b, In a (map amplitude cs) -> In b rest -> (b <= a)%R).
Proof.
  intros Hperm Hsorted Hn Hk Hbuf Hall Hres.
  set (all := map (extract_coeff (fft points n buf) n) (seq 0 n)).
  set (sorted := qsort compare_coeffs_by_amplitude all).
  assert (Hr : fourier_analyze qsort heap points n k
               = {| coefficients := Some (firstn (Nat.min k n) sorted);
                    count := Nat.min k n |}).
  { unfold fourier_analyze.
    destruct (Nat.eqb_spec n 0); [lia|]. destruct (Nat.eqb_spec k 0); [lia|].
    simpl orb. cbv iota. rewrite Hbuf, Hall, Hres. simpl.
    replace (if (n <? k)%nat then n else k) with (Nat.min k n)
      by (destruct (Nat.ltb_spec n k); lia).
    reflexivity. }
  assert (Hlen : length sorted = n).
  { unfold sorted. rewrite <- (Permutation_length (Hperm _ all)).
    unfold all. now rewrite length_map, length_seq. }
  assert (Hss : StronglySorted Rge (map amplitude sorted)).
  { apply (Sorted_StronglySorted Rge_transitive).
    apply (Sorted_map_impl (fun a b => (compare_coeffs_by_amplitude a b <= 0)%Z)).
    - intros a b. apply compare_coeffs_le.
    - apply Hsorted. }
  rewrite <- (firstn_skipn (Nat.min k n) sorted), map_app in Hss.
  apply StronglySorted_app_inv in Hss. destruct Hss as [Hfirst Hcross].
  exists (firstn (Nat.min k n) sorted), (map amplitude (skipn (Nat.min k n) sorted)).
  rewrite Hr. simpl.
  split; [reflexivity|]. split; [reflexivity|].
  split; [rewrite length_firstn, Hlen; lia|].
  split; [exact Hfirst|]. split.
  - rewrite <- map_app, firstn_skipn.
    replace (map (fun i => cabs (get (fft points n buf) i)) (seq 0 n))
      with (map amplitude all) by (unfold all; now rewrite map_map).
    apply Permutation_map, Hperm.
  - intros a b Ha Hb. apply Rge_le. now apply Hcross.
Qed.

Lemma analyze_ranking_witness :
  exists cs rest,
    coefficients (fourier_analyze insertion_sort
                    (mkAllocations (Some [C0]) true true) [C1] 1 1) = Some cs
    /\ count (fourier_analyze insertion_sort
                (mkAllocations (Some [C0]) true true) [C1] 1 1) = Nat.min 1 1
    /\ length cs = Nat.min 1 1
    /\ StronglySorted Rge (map amplitude cs)
    /\ Permutation (map (fun i => cabs (get (fft [C1] 1 [C0]) i)) (seq 0 1))
                   (map amplitude cs ++ rest)
    /\ (forall a b, In a (map amplitude cs) -> In b rest -> (b <= a)%R).
Proof.
  apply (analyze_ranking insertion_sort (mkAllocations (Some [C0]) true true)
                         [C1] 1 1 [C0]).
  - intros cmp l. apply insertion_sort_perm.
  - intros l. apply insertion_sort_sorted. exact compare_coeffs_total.
  - lia.
  - lia.
  - reflexivity.
  - reflexivity.
  - reflexivity.
Defined.

Lemma frequency_is_centered_witness :
  exists cs,
    coefficients
      (fourier_analyze insertion_sort
         (mkAllocations (Some [C0; C0; C0; C0; C0; C0; C0; C0]) true true)
         [C1; Ci; C0; C1; Ci; C0; C1; Ci] 8 8) = Some cs
    /\ exists c,
         In c cs
         /\ c = extract_coeff (fft [C1; Ci; C0; C1; Ci; C0; C1; Ci] 8
                                   [C0; C0; C0; C0; C0; C0; C0; C0]) 8 5
         /\ frequency c = IZR (-3).
Proof.
  destruct (frequency_is_centered insertion_sort
              (mkAllocations (Some [C0; C0; C0; C0; C0; C0; C0; C0]) true true)
              [C1; Ci; C0; C1; Ci; C0; C1; Ci] 8 8
              [C0; C0; C0; C0; C0; C0; C0; C0]
              (fun cmp l => insertion_sort_perm cmp l)
              ltac:(lia) ltac:(lia) eq_refl eq_refl eq_refl)
    as (cs & Hcs & _ & Hall & _).
  exists cs. split; [exact Hcs|].
  destruct (Hall ltac:(lia) 5%nat ltac:(lia)) as (c & Hin & Hc & Hf).
  exists c. auto.
Defined.

(** Degenerate input. *)
Lemma fourier_analyze_degenerate qsort heap points n k :
  n = O \/ k = O -> fourier_analyze qsort heap points n k = empty_result.
Proof.
  unfold fourier_analyze. intros [-> | ->]; [reflexivity|].
  now rewrite Nat.eqb_refl, orb_true_r.
Qed.

(** C7, as the code has it. When one of the allocations of
    [fourier_analyze] fails, the function returns the empty result: a null
    coefficient array and a count of zero.  That is the very value it
    returns for degenerate input ([n == 0] or a requested count of zero);
    the result carries nothing that tells the two apart. *)
Theorem analyze_allocation_failure qsort heap points n k :
  fft_output_buf heap = None \/ all_coeffs_ok heap = false \/ result_ok heap = false ->
  fourier_analyze qsort heap points n k = empty_result
  /\ (forall heap' points', fourier_analyze qsort heap' points' 0 k = empty_result)
  /\ (forall heap' points', fourier_analyze qsort heap' points' n 0 = empty_result).
Proof.
  intros Hfail. split.
  - unfold fourier_analyze.
    destruct ((n =? 0)%nat || (k =? 0)%nat); [reflexivity|].
    destruct (fft_output_buf heap); [|reflexivity].
    destruct (all_coeffs_ok heap); [|reflexivity].
    destruct (result_ok heap); [|reflexivity].
    destruct Hfail as [H | [H | H]]; discriminate.
  - split; intros; apply fourier_analyze_degenerate; auto.
Qed.

Lemma analyze_allocation_failure_witness :
  fourier_analyze insertion_sort (mkAllocations None true true) [C1] 1 1
  = empty_result.
Proof.
  exact (proj1 (analyze_allocation_failure insertion_sort
                  (mkAllocations None true true) [C1] 1 1 (or_introl eq_refl))).
Defined.

(** The claim of a distinguishable failure signal fails: an analysis of one
    point whose first allocation fails returns what an analysis of no
    point returns. *)
Lemma analyze_failure_not_distinguishable :
  ~ (fourier_analyze insertion_sort (mkAllocations None true true) [C1] 1 1
     <> fourier_analyze insertion_sort (mkAllocations (Some []) true true) [] 0 1).
Proof. intros H. apply H. reflexivity. Qed.

(** [ifft] does not test what [malloc] returned: with a null [temp] and a
    power-of-two size it writes through the null pointer. *)
Lemma ifft_null_temp coefficients output :
  ifft None coefficients 1 output = None.
Proof. reflexivity. Qed.

(** ** The epicycle reconstructor *)

Lemma fourier_analyze_wf qsort heap points n k :
  (forall cmp l, Permutation l (qsort cmp l)) ->
  result_wf (fourier_analyze qsort heap points n k).
Proof.
  intros Hperm. unfold result_wf.
  destruct (coefficients (fourier_analyze qsort heap points n k)) as [cs|] eqn:E.
  - destruct (fourier_analyze_some _ _ _ _ _ _ E) as (buf & _ & _ & _ & -> & ->).
    rewrite length_firstn, <- (Permutation_length (Hperm _ _)),
      length_map, length_seq. lia.
  - revert E. unfold fourier_analyze.
    destruct ((n =? 0)%nat || (k =? 0)%nat); [reflexivity|].
    destruct (fft_output_buf heap); [|reflexivity].
    destruct (all_coeffs_ok heap); [|reflexivity].
    destruct (result_ok heap); [discriminate|reflexivity].
Qed.

Lemma epicycle_step_contribution cs t st i :
  fst (epicycle_step cs t st i) = (fst st + contribution (nth i cs coeff0) t)%C.
Proof.
  unfold epicycle_step, contribution; simpl. now rewrite cexp_imag.
Qed.

(** The loop of [epicycles_at_time] after [j] iterations. *)
Lemma epicycle_loop cs t trail0 j :
  (j < length trail0)%nat ->
  get trail0 0 = C0 ->
  exists trail,
    fold_left (epicycle_step cs t) (seq 0 j) (C0, Some trail0)
    = (partial_sum cs t j, Some trail)
    /\ length trail = length trail0
    /\ (forall k, (k <= j)%nat -> get trail k = partial_sum cs t k)
    /\ (forall k, (j < k)%nat -> get trail k = get trail0 k).
Proof.
  intros Hlen H0. induction j as [|j IH].
  - exists trail0. simpl. repeat split; auto.
    intros k Hk. assert (k = O) by lia. subst. exact H0.
  - destruct IH as (trail & Hfold & Hl & Hlow & Hhigh); [lia|].
    rewrite seq_S, fold_left_app, Hfold. simpl fold_left.
    exists (upd (j + 1) (partial_sum cs t (S j)) trail).
    assert (Hstep : fst (epicycle_step cs t (partial_sum cs t j, Some trail) j)
                    = partial_sum cs t (S j)).
    { rewrite epicycle_step_contribution. reflexivity. }
    split.
    { unfold epicycle_step in *. simpl in *. rewrite Hstep. reflexivity. }
    split; [now rewrite length_upd|]. split.
    + intros k Hk. rewrite get_upd by lia.
      destruct (Nat.eqb_spec (j + 1) k).
      * subst. now rewrite Nat.add_1_r.
      * apply Hlow. lia.
    + intros k Hk. rewrite get_upd_neq by lia. apply Hhigh. lia.
Qed.

Lemma epicycles_tip_only cs t positions n :
  fst (fold_left (epicycle_step cs t) (seq 0 n) (C0, positions))
  = partial_sum cs t n.
Proof.
  induction n as [|n IH]; [reflexivity|].
  rewrite seq_S, fold_left_app. simpl fold_left.
  rewrite epicycle_step_contribution, IH. reflexivity.
Qed.

(** C6. For a result of [m] coefficients and a [positions] array of
    [m + 1] entries, [epicycles_at_time] leaves in the array a trail of
    [m + 1] positions: entry 0 is the origin whatever [t] is, entry [k] is
    the sum of the contributions [amplitude * exp (i (phase + t frequency))]
    of the first [k] coefficients, and the last entry is the tip that is
    returned.  For an empty result (no coefficient, or a null pointer) the tip
    is the origin and the trail is the origin alone. *)
Theorem epicycles_trail (r : FourierResult) (t : R) (positions : list C) (m : nat) :
  result_wf r -> count r = m -> length positions = (m + 1)%nat ->
  exists tip trail,
    epicycles_at_time (Some r) t (Some positions) = (tip, Some trail)
    /\ length trail = (m + 1)%nat
    /\ get trail 0 = C0
    /\ (forall k, (1 <= k <= m)%nat -> get trail k = partial_sum (coeffs_of r) t k)
    /\ get trail m = tip
    /\ (m = O -> tip = C0 /\ trail = [C0])
    /\ epicycles_at_time None t (Some positions)
       = (C0, Some (upd 0 C0 positions)).
Proof.
  intros Hwf Hcount Hlen.
  assert (Hempty : m = O -> upd 0 C0 positions = [C0]).
  { intros ->. destruct positions as [|p [|q l]]; try discriminate. reflexivity. }
  assert (Hlen0 : length (upd 0 C0 positions) = (m + 1)%nat)
    by now rewrite length_upd.
  assert (Hget0 : get (upd 0 C0 positions) 0 = C0)
    by (apply get_upd_eq; lia).
  unfold epicycles_at_time, result_wf, coeffs_of in *.
  destruct (coefficients r) as [cs|].
  - destruct (Nat.eqb_spec (count r) 0) as [Hz | Hnz].
    + assert (Hm : m = O) by lia.
      exists C0, (upd 0 C0 positions). cbn [option_map].
      split; [reflexivity|]. split; [exact Hlen0|]. split; [exact Hget0|].
      split; [intros; lia|]. split; [now rewrite Hm|].
      split; [auto | reflexivity].
    + destruct (epicycle_loop cs t (upd 0 C0 positions) m)
        as (trail & Hfold & Hl & Hlow & _); [lia | exact Hget0 |].
      exists (partial_sum cs t m), trail. cbn [option_map].
      rewrite Hcount, Hfold.
      split; [reflexivity|]. split; [lia|].
      split; [apply (Hlow O); lia|].
      split; [intros k Hk; apply Hlow; lia|].
      split; [apply Hlow; lia|].
      split; [intros; lia | reflexivity].
  - assert (Hm : m = O) by lia.
    exists C0, (upd 0 C0 positions). cbn [option_map].
    split; [reflexivity|]. split; [exact Hlen0|]. split; [exact Hget0|].
    split; [intros; lia|]. split; [now rewrite Hm|].
    split; [auto | reflexivity].
Qed.

Lemma epicycles_trail_witness :
  exists tip trail,
    epicycles_at_time (Some (mkResult (Some [mkCoeff 1 1 0]) 1)) 0
                      (Some [C1; C1]) = (tip, Some trail)
    /\ length trail = 2%nat
    /\ get trail 0 = C0
    /\ (forall k, (1 <= k <= 1)%nat ->
                  get trail k = partial_sum [mkCoeff 1 1 0] 0 k)
    /\ get trail 1 = tip
    /\ (1%nat = O -> tip = C0 /\ trail = [C0])
    /\ epicycles_at_time None 0 (Some [C1; C1]) = (C0, Some [C0; C1]).
Proof.
  exact (epicycles_trail (mkResult (Some [mkCoeff 1 1 0]) 1) 0 [C1; C1] 1
           eq_refl eq_refl eq_refl).
Defined.

(** C10. The tip that [epicycles_at_time] returns does not depend on
    whether a [positions] array is supplied: with a null [positions] the
    trail is not recorded and the tip is the same. *)
Theorem epicycles_tip_independent_of_positions
        (result : option FourierResult) (t : R) (positions : list C) :
  fst (epicycles_at_time result t (Some positions))
  = fst (epicycles_at_time result t None)
  /\ snd (epicycles_at_time result t None) = None.
Proof.
  unfold epicycles_at_time.
  destruct result as [r|]; [|now split].
  destruct (coefficients r) as [cs|]; [|now split].
  destruct (count r =? 0)%nat; [now split|].
  rewrite !epicycles_tip_only. split; [reflexivity|].
  cbn [option_map]. generalize (count r). intros n.
  induction n as [|n IH]; [reflexivity|].
  rewrite seq_S, fold_left_app. simpl fold_left.
  unfold epicycle_step at 1. simpl snd. now rewrite IH.
Qed.

(** ** [next_power_of_2] *)

Section NextPowerOf2.
Local Open Scope Z_scope.

Lemma smeared_init x : smeared x x 1.
Proof.
  intros i Hi. split.
  - intros H. exists 0. split; [lia|]. now rewrite Z.add_0_r.
  - intros (d & Hd & H). assert (d = 0) by lia. subst. now rewrite Z.add_0_r in H.
Qed.

Lemma smeared_step x y L :
  0 < L -> smeared x y L -> smeared x (Z.lor y (Z.shiftr y L)) (2 * L).
Proof.
  intros HL Hy i Hi.
  rewrite Z.lor_spec, Z.shiftr_spec, orb_true_iff by exact Hi.
  rewrite (Hy i Hi), (Hy (i + L)) by lia. split.
  - intros [(d & Hd & H) | (d & Hd & H)].
    + exists d. split; [lia | exact H].
    + exists (L + d). split; [lia|]. now rewrite Z.add_assoc.
  - intros (d & Hd & H). destruct (Z.lt_ge_cases d L).
    + left. exists d. split; [lia | exact H].
    + right. exists (d - L). split; [lia|].
      now replace (i + L + (d - L)) with (i + d) by lia.
Qed.

(** Once the window covers every bit of [x], [y] is all ones up to the
    highest bit of [x]. *)
Lemma smeared_full x y L :
  0 < x < 2 ^ L -> 0 < L -> smeared x y L -> y = Z.ones (Z.log2 x + 1).
Proof.
  intros Hx HL Hy. apply Z.bits_inj'. intros i Hi.
  pose proof (Z.log2_nonneg x) as Hlog.
  assert (Hlt : Z.log2 x < L) by (apply Z.log2_lt_pow2; lia).
  rewrite Z.testbit_ones_nonneg by lia.
  destruct (Z.ltb_spec i (Z.log2 x + 1)) as [Hlow | Hhigh].
  - apply (Hy i Hi). exists (Z.log2 x - i). split; [lia|].
    replace (i + (Z.log2 x - i)) with (Z.log2 x) by lia.
    apply Z.bit_log2. lia.
  - destruct (Z.testbit y i) eqn:E; [|reflexivity].
    apply (Hy i Hi) in E. destruct E as (d & Hd & H).
    rewrite Z.bits_above_log2 in H by lia. discriminate.
Qed.

Lemma smeared_zero y L : smeared 0 y L -> y = 0.
Proof.
  intros Hy. apply Z.bits_inj'. intros i Hi. rewrite Z.bits_0.
  destruct (Z.testbit y i) eqn:E; [|reflexivity].
  apply (Hy i Hi) in E. destruct E as (d & _ & H).
  rewrite Z.bits_0 in H. discriminate.
Qed.

(** The value of the cascade of shifts on [x = n - 1]. *)
Lemma cascade_smeared w x :
  let n1 := Z.lor x (Z.shiftr x 1) in
  let n2 := Z.lor n1 (Z.shiftr n1 2) in
  let n3 := Z.lor n2 (Z.shiftr n2 4) in
  let n4 := Z.lor n3 (Z.shiftr n3 8) in
  let n5 := Z.lor n4 (Z.shiftr n4 16) in
  let n6 := if 0xFFFFFFFF <? SIZE_MAX w then Z.lor n5 (Z.shiftr n5 32) else n5 in
  smeared x n6 (if 0xFFFFFFFF <? SIZE_MAX w then 64 else 32).
Proof.
  intros n1 n2 n3 n4 n5 n6.
  assert (H1 : smeared x n1 2) by (apply (smeared_step x x 1); [lia | apply smeared_init]).
  assert (H2 : smeared x n2 4) by (apply (smeared_step x n1 2); [lia | exact H1]).
  assert (H3 : smeared x n3 8) by (apply (smeared_step x n2 4); [lia | exact H2]).
  assert (H4 : smeared x n4 16) by (apply (smeared_step x n3 8); [lia | exact H3]).
  assert (H5 : smeared x n5 32) by (apply (smeared_step x n4 16); [lia | exact H4]).
  subst n6. destruct (0xFFFFFFFF <? SIZE_MAX w); [|exact H5].
  apply (smeared_step x n5 32); [lia | exact H5].
Qed.

Lemma next_power_of_2_value w n :
  0 < w <= 64 -> 2 <= n <= 2 ^ (w - 1) ->
  next_power_of_2 w n = 2 ^ (Z.log2 (n - 1) + 1).
Proof.
  intros Hw Hn.
  assert (Hpw : 2 ^ w = 2 * 2 ^ (w - 1)).
  { replace w with (Z.succ (w - 1)) at 1 by lia. apply Z.pow_succ_r. lia. }
  assert (Hwide : (0xFFFFFFFF <? SIZE_MAX w) = false -> w <= 32).
  { intros H. apply Z.ltb_ge in H. unfold SIZE_MAX in H.
    destruct (Z.le_gt_cases w 32) as [|Hgt]; [assumption|].
    assert (2 ^ 33 <= 2 ^ w) by (apply Z.pow_le_mono_r; lia).
    change (2 ^ 33) with 8589934592 in *. lia. }
  unfold next_power_of_2.
  destruct (Z.eqb_spec n 0); [lia|].
  assert (Hx : wrap w (n - 1) = n - 1) by (unfold wrap; apply Z.mod_small; lia).
  rewrite Hx.
  pose proof (cascade_smeared w (n - 1)) as Hs. cbv zeta in Hs.
  set (L := if 0xFFFFFFFF <? SIZE_MAX w then 64 else 32) in *.
  assert (HwL : w <= L /\ 0 < L).
  { unfold L. destruct (0xFFFFFFFF <? SIZE_MAX w); [lia|].
    split; [now apply Hwide | lia]. }
  apply smeared_full in Hs; [|split; [lia|] | lia].
  - rewrite Hs, Z.ones_equiv.
    replace (Z.pred (2 ^ (Z.log2 (n - 1) + 1)) + 1) with (2 ^ (Z.log2 (n - 1) + 1)) by lia.
    unfold wrap. apply Z.mod_small.
    assert (Z.log2 (n - 1) < w - 1) by (apply Z.log2_lt_pow2; lia).
    pose proof (Z.log2_nonneg (n - 1)).
    assert (2 ^ (Z.log2 (n - 1) + 1) <= 2 ^ (w - 1)) by (apply Z.pow_le_mono_r; lia).
    split; [apply Z.pow_nonneg|]; lia.
  - assert (2 ^ w <= 2 ^ L) by (apply Z.pow_le_mono_r; lia). lia.
Qed.

Lemma next_power_of_2_one w : 0 < w -> next_power_of_2 w 1 = 1.
Proof.
  intros Hw.
  assert (H2 : 2 <= 2 ^ w).
  { change 2 with (2 ^ 1) at 1. apply Z.pow_le_mono_r; lia. }
  assert (Hx : wrap w (1 - 1) = 0) by (unfold wrap; apply Z.mod_0_l; lia).
  pose proof (cascade_smeared w 0) as Hs. cbv zeta in Hs.
  apply smeared_zero in Hs.
  unfold next_power_of_2. change (1 =? 0) with false. cbv iota zeta.
  rewrite Hx, Hs. unfold wrap. apply Z.mod_small. lia.
Qed.
End NextPowerOf2.

(** C9. On a [size_t] of [w] bits ([w] at most 64), for every [n] up to the
    largest power of two of the type, [2 ^ (w - 1)], [next_power_of_2 n] is
    the smallest power of two that is at least [n]; and
    [next_power_of_2 0 = 1]. *)
Theorem next_power_of_2_correct (w n : Z) :
  (0 < w <= 64)%Z -> (0 <= n <= 2 ^ (w - 1))%Z ->
  next_power_of_2 w 0 = 1%Z
  /\ exists k,
      (0 <= k)%Z
      /\ next_power_of_2 w n = (2 ^ k)%Z
      /\ (n <= 2 ^ k)%Z
      /\ (forall j, (0 <= j)%Z -> (n <= 2 ^ j)%Z -> (2 ^ k <= 2 ^ j)%Z).
Proof.
  intros Hw Hn. split; [reflexivity|].
  destruct (Z.le_gt_cases n 1) as [Hsmall | Hbig].
  - exists 0%Z. split; [lia|]. split.
    + assert (n = 0 \/ n = 1)%Z as [-> | ->] by lia;
        [reflexivity | apply next_power_of_2_one; lia].
    + split; [simpl; lia|]. intros j Hj _.
      apply Z.pow_le_mono_r; lia.
  - pose proof (Z.log2_nonneg (n - 1)) as Hlog.
    exists (Z.log2 (n - 1) + 1)%Z. split; [lia|].
    split; [apply next_power_of_2_value; lia|].
    destruct (Z.log2_spec (n - 1)) as [Hlo Hhi]; [lia|].
    split; [unfold Z.succ in Hhi; lia|].
    intros j Hj Hnj. apply Z.pow_le_mono_r; [lia|].
    assert (Z.log2 (n - 1) < j)%Z by (apply Z.log2_lt_pow2; lia). lia.
Qed.

Lemma next_power_of_2_correct_witness :
  next_power_of_2 64 0 = 1%Z
  /\ exists k,
      (0 <= k)%Z
      /\ next_power_of_2 64 1000 = (2 ^ k)%Z
      /\ (1000 <= 2 ^ k)%Z
      /\ (forall j, (0 <= j)%Z -> (1000 <= 2 ^ j)%Z -> (2 ^ k <= 2 ^ j)%Z).
Proof.
  apply (next_power_of_2_correct 64 1000); [lia | vm_compute; split; discriminate].
Defined.

Example next_power_of_2_samples :
  next_power_of_2 64 1000 = 1024%Z
  /\ next_power_of_2 64 1024 = 1024%Z
  /\ next_power_of_2 32 5 = 8%Z
  /\ next_power_of_2 64 (2 ^ 63) = (2 ^ 63)%Z.
Proof. repeat split. Qed.

(** ** Finite sums *)

Lemma Csum_ext f g n :
  (forall i, (i < n)%nat -> f i = g i) -> Csum f n = Csum g n.
Proof.
  induction n as [|n IH]; intros H; simpl; [reflexivity|].
  rewrite IH, H; auto.
Qed.

Lemma Csum_add f g n :
  Csum (fun i => f i + g i)%C n = (Csum f n + Csum g n)%C.
Proof.
  induction n as [|n IH]; simpl; [cring|]. rewrite IH. cring.
Qed.

Lemma Csum_mul_l c f n : Csum (fun i => c * f i)%C n = (c * Csum f n)%C.
Proof.
  induction n as [|n IH]; simpl; [cring|]. rewrite IH. cring.
Qed.

Lemma Csum_zero n : Csum (fun _ => C0) n = C0.
Proof. induction n as [|n IH]; simpl; [reflexivity|]. rewrite IH. cring. Qed.

Lemma Csum_even_odd f m :
  Csum f (2 * m) = (Csum (fun l => f (2 * l)%nat) m + Csum (fun l => f (2 * l + 1)%nat) m)%C.
Proof.
  induction m as [|m IH]; [simpl; cring|].
  replace (2 * S m)%nat with (S (S (2 * m))) by lia.
  cbn [Csum]. rewrite IH.
  replace (S (2 * m)) with (2 * m + 1)%nat by lia. cring.
Qed.

Lemma Csum_swap (f : nat -> nat -> C) n m :
  Csum (fun i => Csum (fun j => f i j) m) n
  = Csum (fun j => Csum (fun i => f i j) n) m.
Proof.
  induction n as [|n IH]; cbn [Csum].
  - now rewrite Csum_zero.
  - now rewrite IH, Csum_add.
Qed.

(** A sum with a single non-zero term. *)
Lemma Csum_single f n i :
  (i < n)%nat -> (forall j, (j < n)%nat -> j <> i -> f j = C0) -> Csum f n = f i.
Proof.
  induction n as [|n IH]; intros Hi Hz; [lia|]. cbn [Csum].
  destruct (Nat.eq_dec i n) as [-> | Hne].
  - rewrite (Csum_ext f (fun _ => C0)), Csum_zero by (intros; apply Hz; lia).
    cring.
  - rewrite IH, (Hz n) by (try intros; try apply Hz; lia). cring.
Qed.

(** ** Roots of unity *)

Lemma INR_pos n : (0 < n)%nat -> (0 < INR n)%R.
Proof. intros H. apply lt_0_INR. exact H. Qed.

Lemma omega_add m a b : omega m (a + b) = (omega m a * omega m b)%C.
Proof.
  unfold omega. rewrite <- expi_plus, plus_INR. f_equal. unfold Rdiv. ring.
Qed.

Lemma omega_0 m : omega m 0 = C1.
Proof.
  unfold omega. simpl INR. rewrite <- expi_0. f_equal. unfold Rdiv. ring.
Qed.

Lemma omega_double m e : (0 < m)%nat -> omega (2 * m) (2 * e) = omega m e.
Proof.
  intros Hm. unfold omega. f_equal. rewrite !mult_INR. simpl INR.
  pose proof (INR_pos m Hm). field. lra.
Qed.

Lemma expi_2PI_n e : expi (2 * INR e * PI) = C1.
Proof.
  unfold expi, C1, RtoC.
  replace (2 * INR e * PI)%R with (0 + 2 * INR e * PI)%R by ring.
  now rewrite cos_period, sin_period, cos_0, sin_0.
Qed.

Lemma expi_neg theta : expi (- theta) = Cconj (expi theta).
Proof. unfold expi, Cconj; simpl. now rewrite cos_neg, sin_neg. Qed.

Lemma omega_period m e : (0 < m)%nat -> omega m (m * e) = C1.
Proof.
  intros Hm. unfold omega. rewrite mult_INR.
  replace (-2 * PI * (INR m * INR e) / INR m)%R with (- (2 * INR e * PI))%R
    by (pose proof (INR_pos m Hm); field; lra).
  rewrite expi_neg, expi_2PI_n. cring.
Qed.

Lemma omega_half m : (0 < m)%nat -> omega (2 * m) m = RtoC (-1).
Proof.
  intros Hm. unfold omega. rewrite mult_INR. simpl INR.
  replace (-2 * PI * INR m / ((1 + 1) * INR m))%R with (- PI)%R
    by (pose proof (INR_pos m Hm); field; lra).
  unfold expi, RtoC. now rewrite cos_neg, sin_neg, cos_PI, sin_PI, Ropp_0.
Qed.

Lemma Cpow_omega m j : Cpow (omega m 1) j = omega m j.
Proof.
  unfold omega. rewrite Cpow_expi. f_equal. simpl INR. unfold Rdiv. ring.
Qed.

(** The twiddle factor that [fft] computes with [cexp]. *)
Lemma twiddle_omega m :
  cexp (Cdivr (RtoC (-2 * PI) * Ci)%C (INR m)) = omega m 1.
Proof.
  unfold cexp, omega, expi; cunfold.
  replace ((-2 * PI * 0 - 0 * 1) / INR m)%R with 0%R by (unfold Rdiv; ring).
  replace ((-2 * PI * 1 + 0 * 0) / INR m)%R with (-2 * PI * 1 / INR m)%R
    by (unfold Rdiv; ring).
  rewrite exp_0. apply Ceq; simpl; ring.
Qed.

(** ** The radix-2 splitting of a transform *)

Lemma radix2_low x m stride off j :
  (0 < m)%nat ->
  strided_dft x (2 * m) stride off j
  = (strided_dft x m (2 * stride) off j
     + omega (2 * m) j * strided_dft x m (2 * stride) (off + stride) j)%C.
Proof.
  intros Hm. unfold strided_dft. rewrite Csum_even_odd, <- Csum_mul_l.
  f_equal; apply Csum_ext; intros l _.
  - replace (2 * l * stride + off)%nat with (l * (2 * stride) + off)%nat by lia.
    replace (j * (2 * l))%nat with (2 * (j * l))%nat by lia.
    now rewrite omega_double.
  - replace ((2 * l + 1) * stride + off)%nat
      with (l * (2 * stride) + (off + stride))%nat by lia.
    replace (j * (2 * l + 1))%nat with (2 * (j * l) + j)%nat by lia.
    rewrite omega_add, omega_double by exact Hm. cring.
Qed.

Lemma radix2_high x m stride off j :
  (0 < m)%nat ->
  strided_dft x (2 * m) stride off (j + m)
  = (strided_dft x m (2 * stride) off j
     - omega (2 * m) j * strided_dft x m (2 * stride) (off + stride) j)%C.
Proof.
  intros Hm. unfold strided_dft.
  rewrite Csum_even_odd.
  replace (Csum (fun l => get x (l * (2 * stride) + off) * omega m (j * l))%C m
           - omega (2 * m) j
             * Csum (fun l => get x (l * (2 * stride) + (off + stride))
                              * omega m (j * l))%C m)%C
    with (Csum (fun l => get x (l * (2 * stride) + off) * omega m (j * l))%C m
          + Csum (fun l => (RtoC (-1) * omega (2 * m) j)
                           * (get x (l * (2 * stride) + (off + stride))
                              * omega m (j * l)))%C m)%C
    by (rewrite Csum_mul_l; cring).
  f_equal; apply Csum_ext; intros l _.
  - replace (2 * l * stride + off)%nat with (l * (2 * stride) + off)%nat by lia.
    replace ((j + m) * (2 * l))%nat with (2 * (j * l + m * l))%nat by lia.
    rewrite omega_double, omega_add, omega_period by exact Hm. cring.
  - replace ((2 * l + 1) * stride + off)%nat
      with (l * (2 * stride) + (off + stride))%nat by lia.
    replace ((j + m) * (2 * l + 1))%nat
      with (2 * (j * l + m * l) + (j + m))%nat by lia.
    rewrite !omega_add, omega_double, omega_add, omega_period, omega_half
      by exact Hm.
    cring.
Qed.

(** ** Powers of two and bit reversal *)

Lemma pow2_pos p : (0 < 2 ^ p)%nat.
Proof. induction p; simpl; lia. Qed.

Lemma is_power_of_2_pow2 p : is_power_of_2 (Z.of_nat (2 ^ p)) = true.
Proof.
  unfold is_power_of_2.
  rewrite Nat2Z.inj_pow. change (Z.of_nat 2) with 2%Z.
  assert (0 < 2 ^ Z.of_nat p)%Z by (apply Z.pow_pos_nonneg; lia).
  apply andb_true_intro. split; [now apply Z.ltb_lt|].
  apply Z.eqb_eq.
  replace (2 ^ Z.of_nat p - 1)%Z with (Z.ones (Z.of_nat p))
    by (rewrite Z.ones_equiv; lia).
  rewrite Z.land_ones by lia. apply Z.mod_same. lia.
Qed.

Lemma is_power_of_2_inv n :
  is_power_of_2 (Z.of_nat n) = true -> exists p, n = (2 ^ p)%nat.
Proof.
  unfold is_power_of_2. intros H.
  apply andb_prop in H. destruct H as [Hpos Hland].
  apply Z.ltb_lt in Hpos. apply Z.eqb_eq in Hland.
  set (z := Z.of_nat n) in *.
  pose proof (Z.log2_nonneg z) as Hlog.
  destruct (Z.log2_spec z Hpos) as [Hlo Hhi].
  exists (Z.to_nat (Z.log2 z)).
  apply Nat2Z.inj. fold z.
  rewrite Nat2Z.inj_pow, Z2Nat.id by exact Hlog. change (Z.of_nat 2) with 2%Z.
  destruct (Z.eq_dec z (2 ^ Z.log2 z)) as [|Hne]; [assumption|exfalso].
  assert (Hlog1 : Z.log2 (z - 1) = Z.log2 z).
  { apply Z.log2_unique; [exact Hlog|]. unfold Z.succ in Hhi. lia. }
  assert (Hbit : Z.testbit (Z.land z (z - 1)) (Z.log2 z) = true).
  { rewrite Z.land_spec, (Z.bit_log2 z) by lia.
    rewrite <- Hlog1, Z.bit_log2 by lia. reflexivity. }
  rewrite Hland, Z.bits_0 in Hbit. discriminate.
Qed.

Lemma count_bits_pow2 fuel p bits :
  (p <= fuel)%nat -> count_bits fuel (2 ^ p) bits = (bits + p)%nat.
Proof.
  revert fuel bits. induction p as [|p IH]; intros fuel bits Hf.
  - destruct fuel; simpl; lia.
  - destruct fuel as [|fuel]; [lia|].
    cbn [count_bits].
    assert (H1 : (1 <? 2 ^ S p)%nat = true).
    { apply Nat.ltb_lt. pose proof (pow2_pos p). simpl. lia. }
    rewrite H1, Nat.shiftr_div_pow2.
    replace (2 ^ S p / 2 ^ 1)%nat with (2 ^ p)%nat.
    + rewrite IH by lia. lia.
    + change (2 ^ 1)%nat with 2%nat. rewrite Nat.pow_succ_r'.
      rewrite Nat.mul_comm, Nat.div_mul; lia.
Qed.

Lemma pow2_gt_lin p : (p < 2 ^ p)%nat.
Proof. apply Nat.pow_gt_lin_r. lia. Qed.

Lemma land_1 a : Nat.land a 1 = (a mod 2)%nat.
Proof. apply (Nat.land_ones a 1). Qed.

Lemma lor_shift_bit r t :
  Nat.lor (Nat.shiftl r 1) (Nat.land t 1) = (2 * r + t mod 2)%nat.
Proof.
  rewrite Nat.shiftl_mul_pow2, land_1. change (2 ^ 1)%nat with 2%nat.
  assert (Hdisj : Nat.land (r * 2) (t mod 2) = 0%nat).
  { pose proof (Nat.mod_upper_bound t 2 ltac:(lia)) as Hb.
    assert (t mod 2 = 0 \/ t mod 2 = 1)%nat as [-> | ->] by lia.
    - apply Nat.land_0_r.
    - rewrite land_1. apply Nat.Div0.mod_mul. }
  rewrite <- Nat.lxor_lor, <- Nat.add_nocarry_lxor by exact Hdisj. lia.
Qed.

Lemma rev_loop_S bits r t :
  rev_loop (S bits) r t = rev_loop bits (2 * r + t mod 2) (t / 2).
Proof.
  cbn [rev_loop]. rewrite lor_shift_bit, Nat.shiftr_div_pow2. reflexivity.
Qed.

Lemma rev_loop_acc bits r t :
  rev_loop bits r t = (r * 2 ^ bits + rev_loop bits 0 t)%nat.
Proof.
  revert r t. induction bits as [|bits IH]; intros r t.
  - simpl. lia.
  - rewrite !rev_loop_S, (IH (2 * r + t mod 2)%nat), (IH (2 * 0 + t mod 2)%nat).
    rewrite Nat.pow_succ_r'. nia.
Qed.

Lemma rev_loop_last bits r t :
  rev_loop (S bits) r t = (2 * rev_loop bits r t + (t / 2 ^ bits) mod 2)%nat.
Proof.
  revert r t. induction bits as [|bits IH]; intros r t.
  - rewrite rev_loop_S. cbn [rev_loop]. change (2 ^ 0)%nat with 1%nat.
    now rewrite Nat.div_1_r.
  - rewrite rev_loop_S, IH, <- rev_loop_S.
    rewrite Nat.Div0.div_div, <- Nat.pow_succ_r'. reflexivity.
Qed.

Lemma rev_loop_high bits r z c :
  rev_loop bits r (z + c * 2 ^ bits) = rev_loop bits r z.
Proof.
  revert r z c. induction bits as [|bits IH]; intros r z c; [reflexivity|].
  rewrite !rev_loop_S.
  replace (z + c * 2 ^ S bits)%nat with (z + (c * 2 ^ bits) * 2)%nat
    by (rewrite Nat.pow_succ_r'; lia).
  rewrite Nat.Div0.mod_add, Nat.div_add by lia. apply IH.
Qed.

Lemma bitrev_S q i :
  bitrev (S q) i = ((i mod 2) * 2 ^ q + bitrev q (i / 2))%nat.
Proof.
  unfold bitrev. rewrite rev_loop_S, rev_loop_acc. reflexivity.
Qed.

Lemma bitrev_even q b : bitrev (S q) (2 * b) = bitrev q b.
Proof.
  rewrite bitrev_S.
  replace (2 * b)%nat with (b * 2)%nat by lia.
  rewrite Nat.Div0.mod_mul, Nat.div_mul by lia. lia.
Qed.

Lemma bitrev_odd q b : bitrev (S q) (2 * b + 1) = (2 ^ q + bitrev q b)%nat.
Proof.
  rewrite bitrev_S.
  replace (2 * b + 1)%nat with (1 + b * 2)%nat by lia.
  rewrite Nat.Div0.mod_add, Nat.div_add by lia.
  change (1 mod 2)%nat with 1%nat. change (1 / 2)%nat with 0%nat.
  now rewrite Nat.add_0_l, Nat.mul_1_l.
Qed.

Lemma bitrev_lt q i : (bitrev q i < 2 ^ q)%nat.
Proof.
  revert i. induction q as [|q IH]; intros i; [unfold bitrev; simpl; lia|].
  rewrite bitrev_S, Nat.pow_succ_r'.
  pose proof (IH (i / 2)%nat). pose proof (Nat.mod_upper_bound i 2 ltac:(lia)).
  nia.
Qed.

Lemma bitrev_involutive q i : (i < 2 ^ q)%nat -> bitrev q (bitrev q i) = i.
Proof.
  revert i. induction q as [|q IH]; intros i Hi.
  - simpl in Hi. unfold bitrev. simpl. lia.
  - rewrite Nat.pow_succ_r' in Hi.
    assert (Ha : (i / 2 < 2 ^ q)%nat) by (apply Nat.Div0.div_lt_upper_bound; lia).
    rewrite (bitrev_S q i). unfold bitrev at 1.
    rewrite rev_loop_last.
    replace (i mod 2 * 2 ^ q + bitrev q (i / 2))%nat
      with (bitrev q (i / 2) + (i mod 2) * 2 ^ q)%nat by lia.
    rewrite rev_loop_high. fold (bitrev q (bitrev q (i / 2))).
    rewrite IH by exact Ha.
    rewrite Nat.div_add, (Nat.div_small (bitrev q (i / 2))) by
      (try apply bitrev_lt; pose proof (pow2_pos q); lia).
    rewrite Nat.add_0_l, Nat.Div0.mod_mod.
    pose proof (Nat.div_mod_eq i 2). lia.
Qed.

(** [bit_reverse_copy] on [2 ^ p] samples: the output is the input read in
    bit-reversed order, whatever the output array held before. *)
Lemma scatter_loop (input : list C) p t out :
  length out = (2 ^ p)%nat -> (t <= 2 ^ p)%nat ->
  let r := fold_left (fun o i => upd (bitrev p i) (get input i) o) (seq 0 t) out in
  length r = (2 ^ p)%nat
  /\ forall j, (j < 2 ^ p)%nat ->
       get r j = if (bitrev p j <? t)%nat then get input (bitrev p j) else get out j.
Proof.
  intros Hlen. induction t as [|t IH]; intros Ht; cbv zeta.
  - simpl. split; [exact Hlen|]. intros j _. reflexivity.
  - destruct IH as [Hl Hget]; [lia|].
    rewrite seq_S, fold_left_app. simpl fold_left.
    split; [now rewrite length_upd|].
    intros j Hj. rewrite get_upd by (rewrite Hl; apply bitrev_lt).
    destruct (Nat.eqb_spec (bitrev p t) j) as [E | NE].
    + subst j. rewrite bitrev_involutive by lia.
      assert (H : (t <? S t)%nat = true) by (apply Nat.ltb_lt; lia).
      now rewrite H.
    + rewrite Hget by exact Hj.
      assert (Hne : bitrev p j <> t).
      { intros E. apply NE. rewrite <- E. apply bitrev_involutive. exact Hj. }
      destruct (Nat.ltb_spec (bitrev p j) t), (Nat.ltb_spec (bitrev p j) (S t));
        try lia; reflexivity.
Qed.

Lemma bit_reverse_copy_spec input output p :
  length output = (2 ^ p)%nat ->
  length (bit_reverse_copy input output (2 ^ p)) = (2 ^ p)%nat
  /\ forall j, (j < 2 ^ p)%nat ->
       get (bit_reverse_copy input output (2 ^ p)) j = get input (bitrev p j).
Proof.
  intros Hlen. unfold bit_reverse_copy.
  rewrite count_bits_pow2 by (pose proof (pow2_gt_lin p); lia). simpl (0 + p)%nat.
  destruct (scatter_loop input p (2 ^ p) output Hlen (Nat.le_refl _)) as [Hl Hget].
  split; [exact Hl|]. intros j Hj.
  unfold bitrev in *. rewrite Hget by exact Hj.
  pose proof (bitrev_lt p j) as Hlt. unfold bitrev in Hlt.
  apply Nat.ltb_lt in Hlt. now rewrite Hlt.
Qed.

(** ** Loops over an array *)

(** A loop whose iteration [i] rewrites entry [i] from its own value. *)
Lemma fold_pointwise (step : list C -> nat -> list C) (h : nat -> C -> C) n :
  (forall out i, (i < n)%nat -> (n <= length out)%nat ->
     length (step out i) = length out
     /\ get (step out i) i = h i (get out i)
     /\ forall j, j <> i -> get (step out i) j = get out j) ->
  forall m out, (m <= n)%nat -> (n <= length out)%nat ->
    length (fold_left step (seq 0 m) out) = length out
    /\ forall j, get (fold_left step (seq 0 m) out) j
                 = if (j <? m)%nat then h j (get out j) else get out j.
Proof.
  intros Hstep. induction m as [|m IH]; intros out Hm Hn.
  - simpl. split; [reflexivity|]. intros j. reflexivity.
  - destruct (IH out) as [Hl Hget]; [lia | exact Hn |].
    rewrite seq_S, fold_left_app. simpl fold_left.
    destruct (Hstep (fold_left step (seq 0 m) out) m) as (Hl' & Hat & Hother);
      [lia | lia |].
    split; [congruence|]. intros j.
    destruct (Nat.eq_dec j m) as [-> | Hne].
    + rewrite Hat, Hget.
      assert (H1 : (m <? m)%nat = false) by (apply Nat.ltb_ge; lia).
      assert (H2 : (m <? S m)%nat = true) by (apply Nat.ltb_lt; lia).
      now rewrite H1, H2.
    + rewrite Hother, Hget by exact Hne.
      destruct (Nat.ltb_spec j m), (Nat.ltb_spec j (S m)); try lia; reflexivity.
Qed.

(** A loop that accumulates a sum into entry [k]. *)
Lemma acc_loop (f : nat -> C) k n out :
  (k < length out)%nat ->
  let r := fold_left (fun o j => upd k (get o k + f j)%C o) (seq 0 n) out in
  length r = length out
  /\ get r k = (get out k + Csum f n)%C
  /\ forall j, j <> k -> get r j = get out j.
Proof.
  intros Hk. induction n as [|n IH]; cbv zeta.
  - simpl. split; [reflexivity|]. split; [cring | reflexivity].
  - destruct IH as (Hl & Hat & Hother).
    rewrite seq_S, fold_left_app. simpl fold_left.
    split; [now rewrite length_upd|]. split.
    + rewrite get_upd_eq by lia. rewrite Hat. cbn [Csum]. cring.
    + intros j Hj. rewrite get_upd_neq by auto. now apply Hother.
Qed.

(** ** The direct transform *)

Lemma dft_term_formula points n k j :
  dft_term points n k j
  = (get points j * expi (-2 * PI * INR j * INR k / INR n)%R)%C.
Proof. unfold dft_term. now rewrite cexp_imag. Qed.

Lemma Cdivr_scale z r : Cdivr z r = (RtoC (1 / r) * z)%C.
Proof. apply Ceq; cunfold; unfold Rdiv; ring. Qed.

Lemma dft_body_spec points n out k :
  (k < length out)%nat ->
  length (dft_body points n out k) = length out
  /\ get (dft_body points n out k) k = dft_formula points n k
  /\ forall j, j <> k -> get (dft_body points n out k) j = get out j.
Proof.
  intros Hk. unfold dft_body, dft_inner.
  destruct (acc_loop (dft_term points n k) k n (upd k C0 out))
    as (Hl & Hat & Hother); [now rewrite length_upd|].
  rewrite length_upd in Hl.
  split; [now rewrite length_upd|]. split.
  - rewrite get_upd_eq by lia. rewrite Hat, get_upd_eq by exact Hk.
    rewrite Cadd_0_l, Cdivr_scale. unfold dft_formula. f_equal.
    apply Csum_ext. intros j _. apply dft_term_formula.
  - intros j Hj. rewrite get_upd_neq, Hother, get_upd_neq by auto. reflexivity.
Qed.

Lemma dft_spec points n output :
  length output = n ->
  length (dft points n output) = n
  /\ forall k, (k < n)%nat -> get (dft points n output) k = dft_formula points n k.
Proof.
  intros Hlen. unfold dft.
  destruct (fold_pointwise (dft_body points n) (fun k _ => dft_formula points n k) n)
    with (m := n) (out := output) as [Hl Hget]; try lia.
  - intros out i Hi Hn. apply dft_body_spec. lia.
  - split; [lia|]. intros k Hk. rewrite Hget.
    apply Nat.ltb_lt in Hk. now rewrite Hk.
Qed.

(** ** The butterflies of the fast transform *)

(** The innermost loop after [J] butterflies of the block at [k]. *)
Lemma butterfly_loop wm k half out J :
  (k + 2 * half <= length out)%nat -> (J <= half)%nat ->
  let st := fold_left (butterfly wm k half) (seq 0 J) (C1, out) in
  fst st = Cpow wm J
  /\ length (snd st) = length out
  /\ forall i,
       get (snd st) i
       = if ((k <=? i) && (i <? k + J))%nat
         then (get out i + Cpow wm (i - k) * get out (i + half)%nat)%C
         else if ((k + half <=? i) && (i <? k + half + J))%nat
              then (get out (i - half)%nat - Cpow wm (i - k - half) * get out i)%C
              else get out i.
Proof.
  intros Hlen. induction J as [|J IH]; intros HJ; cbv zeta.
  - simpl. split; [reflexivity|]. split; [reflexivity|]. intros i.
    destruct (Nat.leb_spec k i), (Nat.ltb_spec i (k + 0)),
      (Nat.leb_spec (k + half) i), (Nat.ltb_spec i (k + half + 0));
      simpl; try lia; reflexivity.
  - destruct IH as (Hw & Hl & Hget); [lia|].
    rewrite seq_S, fold_left_app. simpl fold_left.
    set (st := fold_left (butterfly wm k half) (seq 0 J) (C1, out)) in *.
    unfold butterfly. cbn [fst snd]. simpl (0 + J)%nat.
    split; [now rewrite Hw|].
    split; [now rewrite !length_upd|].
    assert (Hlow : get (snd st) (k + J) = get out (k + J)).
    { rewrite Hget.
      destruct (Nat.leb_spec k (k + J)), (Nat.ltb_spec (k + J) (k + J)),
        (Nat.leb_spec (k + half) (k + J)), (Nat.ltb_spec (k + J) (k + half + J));
        simpl; try lia; reflexivity. }
    assert (Hhigh : get (snd st) (k + J + half) = get out (k + J + half)).
    { rewrite Hget.
      destruct (Nat.leb_spec k (k + J + half)), (Nat.ltb_spec (k + J + half) (k + J)),
        (Nat.leb_spec (k + half) (k + J + half)),
        (Nat.ltb_spec (k + J + half) (k + half + J));
        simpl; try lia; reflexivity. }
    intros i. rewrite Hw, Hlow, Hhigh.
    rewrite get_upd by (rewrite length_upd; lia).
    destruct (Nat.eqb_spec (k + J + half) i) as [E | NE].
    { subst i.
      destruct (Nat.leb_spec k (k + J + half)),
        (Nat.ltb_spec (k + J + half) (k + S J)),
        (Nat.leb_spec (k + half) (k + J + half)),
        (Nat.ltb_spec (k + J + half) (k + half + S J));
        simpl; try lia.
      replace (k + J + half - half)%nat with (k + J)%nat by lia.
      replace (k + J + half - k - half)%nat with J by lia. reflexivity. }
    rewrite get_upd by lia.
    destruct (Nat.eqb_spec (k + J) i) as [E | NE'].
    { subst i.
      destruct (Nat.leb_spec k (k + J)), (Nat.ltb_spec (k + J) (k + S J));
        simpl; try lia.
      replace (k + J - k)%nat with J by lia. reflexivity. }
    rewrite Hget.
    destruct (Nat.leb_spec k i), (Nat.ltb_spec i (k + J)),
      (Nat.ltb_spec i (k + S J)),
      (Nat.leb_spec (k + half) i), (Nat.ltb_spec i (k + half + J)),
      (Nat.ltb_spec i (k + half + S J));
      simpl; try lia; reflexivity.
Qed.

(** Indices of one block. *)
Lemma block_index m b j : (j < m)%nat -> ((b * m + j) mod m = j /\ (b * m + j) / m = b)%nat.
Proof.
  intros Hj. split.
  - rewrite Nat.add_comm, Nat.Div0.mod_add. now apply Nat.mod_small.
  - rewrite Nat.add_comm, Nat.div_add by lia. rewrite Nat.div_small by exact Hj. lia.
Qed.

Lemma block_decompose m i : (0 < m)%nat -> (i = (i / m) * m + i mod m /\ i mod m < m)%nat.
Proof.
  intros Hm. split.
  - pose proof (Nat.div_mod_eq i m). lia.
  - apply Nat.mod_upper_bound. lia.
Qed.

(** [stage_value] at index [i] reads its argument within the block of [i]. *)
Lemma stage_value_ext half wm f g i :
  (0 < half)%nat ->
  (forall i', (i' / (2 * half) = i / (2 * half))%nat -> f i' = g i') ->
  stage_value (2 * half) wm f i = stage_value (2 * half) wm g i.
Proof.
  intros Hh Hfg. unfold stage_value.
  replace (2 * half / 2)%nat with half
    by (rewrite Nat.mul_comm, Nat.div_mul; lia).
  destruct (block_decompose (2 * half) i) as [Hi Hj]; [lia|].
  set (b := (i / (2 * half))%nat) in *. set (j := (i mod (2 * half))%nat) in *.
  destruct (Nat.ltb_spec j half) as [Hlt | Hge].
  - rewrite (Hfg i), (Hfg (i + half)%nat); try reflexivity.
    replace (i + half)%nat with (b * (2 * half) + (j + half))%nat by lia.
    apply block_index. lia.
  - rewrite (Hfg i), (Hfg (i - half)%nat); try reflexivity.
    replace (i - half)%nat with (b * (2 * half) + (j - half))%nat by lia.
    apply block_index. lia.
Qed.

(** The loop over the blocks, from block [B] on. *)
Lemma fft_blocks_spec wm half N fuel B out :
  (0 < half)%nat ->
  length out = (N * (2 * half))%nat -> (B <= N)%nat -> (N - B <= fuel)%nat ->
  let n := (N * (2 * half))%nat in
  let r := fft_blocks fuel wm (2 * half) n (B * (2 * half)) out in
  length r = n
  /\ forall i, (i < n)%nat ->
       get r i = if (i <? B * (2 * half))%nat then get out i
                 else stage_value (2 * half) wm (get out) i.
Proof.
  intros Hh. revert B out.
  induction fuel as [|fuel IH]; intros B out Hlen HB Hfuel; cbv zeta.
  - simpl. split; [exact Hlen|]. intros i Hi.
    assert (B = N) by lia. subst B.
    apply Nat.ltb_lt in Hi. now rewrite Hi.
  - cbn [fft_blocks].
    destruct (Nat.ltb_spec (B * (2 * half)) (N * (2 * half))) as [Hlt | Hge].
    + assert (HBN : (B < N)%nat) by nia.
      unfold fft_block.
      replace (2 * half / 2)%nat with half
        by (rewrite Nat.mul_comm, Nat.div_mul; lia).
      destruct (butterfly_loop wm (B * (2 * half)) half out half)
        as (_ & Hl' & Hget'); [nia | lia |].
      set (out' := snd (fold_left (butterfly wm (B * (2 * half)) half)
                                  (seq 0 half) (C1, out))) in *.
      replace (B * (2 * half) + 2 * half)%nat with (S B * (2 * half))%nat by lia.
      destruct (IH (S B) out') as [Hl Hget]; [congruence | lia | lia |].
      split; [exact Hl|]. intros i Hi. rewrite (Hget i Hi).
      destruct (block_decompose (2 * half) i) as [Hdec Hj]; [lia|].
      set (b := (i / (2 * half))%nat) in *. set (j := (i mod (2 * half))%nat) in *.
      destruct (Nat.ltb_spec i (S B * (2 * half))) as [Hin | Hout].
      * rewrite Hget'.
        destruct (Nat.ltb_spec i (B * (2 * half))) as [Hbefore | Hhere].
        { destruct (Nat.leb_spec (B * (2 * half)) i),
            (Nat.leb_spec (B * (2 * half) + half) i);
            simpl; try lia; reflexivity. }
        assert (Hb : b = B) by nia.
        unfold stage_value. fold j.
        replace (2 * half / 2)%nat with half
          by (rewrite Nat.mul_comm, Nat.div_mul; lia).
        replace (i - B * (2 * half))%nat with j by lia.
        replace (i - B * (2 * half) - half)%nat with (j - half)%nat by lia.
        destruct (Nat.ltb_spec j half),
          (Nat.leb_spec (B * (2 * half)) i),
          (Nat.ltb_spec i (B * (2 * half) + half)),
          (Nat.leb_spec (B * (2 * half) + half) i),
          (Nat.ltb_spec i (B * (2 * half) + half + half));
          simpl; try lia; reflexivity.
      * destruct (Nat.ltb_spec i (B * (2 * half))); [lia|].
        apply stage_value_ext; [exact Hh|].
        intros i' Hi'. rewrite Hget'.
        destruct (block_decompose (2 * half) i') as [Hdec' Hj']; [lia|].
        fold b in Hi'. rewrite Hi' in Hdec'.
        assert (S B <= b)%nat by nia.
        assert (S B * (2 * half) <= i')%nat by nia.
        destruct (Nat.leb_spec (B * (2 * half)) i'),
          (Nat.ltb_spec i' (B * (2 * half) + half)),
          (Nat.leb_spec (B * (2 * half) + half) i'),
          (Nat.ltb_spec i' (B * (2 * half) + half + half));
          simpl; try lia; reflexivity.
    + assert (B = N) by nia. subst B.
      split; [exact Hlen|]. intros i Hi.
      apply Nat.ltb_lt in Hi. now rewrite Hi.
Qed.

(** Below [s = 31] the shift on [int] does not overflow. *)
Lemma shl_int_small s :
  (s <= 30)%nat -> size_t_of_int (shl_int 1 s) = (2 ^ s)%nat.
Proof.
  intros Hs. unfold size_t_of_int, shl_int, int_wrap, wrap.
  rewrite Z.shiftl_1_l.
  assert (H0 : (0 < 2 ^ Z.of_nat s)%Z) by (apply Z.pow_pos_nonneg; lia).
  assert (H1 : (2 ^ Z.of_nat s < 2 ^ 31)%Z) by (apply Z.pow_lt_mono_r; lia).
  rewrite (Z.mod_small (2 ^ Z.of_nat s + 2 ^ 31)) by lia.
  rewrite Z.mod_small by lia.
  replace (2 ^ Z.of_nat s + 2 ^ 31 - 2 ^ 31)%Z with (2 ^ Z.of_nat s)%Z by lia.
  rewrite Z2Nat.inj_pow by lia. now rewrite Nat2Z.id.
Qed.

(** At [s = 31] it does: the result is [INT_MIN], which the conversion to
    [size_t] turns into [2 ^ 64 - 2 ^ 31], not into [2 ^ 31]. *)
Lemma shl_int_overflow :
  shl_int 1 31 = (- 2 ^ 31)%Z /\ wrap 64 (shl_int 1 31) = (2 ^ 64 - 2 ^ 31)%Z.
Proof. split; reflexivity. Qed.

(** A power of two below [2 ^ 31] has an exponent of at most 30. *)
Lemma pow2_below_int_max p : (Z.of_nat (2 ^ p) < 2 ^ 31)%Z -> (p <= 30)%nat.
Proof.
  rewrite Nat2Z.inj_pow. change (Z.of_nat 2) with 2%Z. intros H.
  apply Z.pow_lt_mono_r_iff in H; lia.
Qed.

(** One stage of [fft] on an array of [2 ^ p] entries. *)
Lemma fft_stage_spec p s out :
  (1 <= s <= p)%nat -> (p <= 30)%nat -> length out = (2 ^ p)%nat ->
  length (fft_stage (2 ^ p) out s) = (2 ^ p)%nat
  /\ forall i, (i < 2 ^ p)%nat ->
       get (fft_stage (2 ^ p) out s) i
       = stage_value (2 ^ s) (omega (2 ^ s) 1) (get out) i.
Proof.
  intros Hs Hp Hlen. unfold fft_stage.
  rewrite shl_int_small by lia. rewrite twiddle_omega.
  destruct s as [|s]; [lia|].
  assert (Hm : (2 ^ S s = 2 * 2 ^ s)%nat) by apply Nat.pow_succ_r'.
  assert (Hn : (2 ^ p = 2 ^ (p - S s) * (2 * 2 ^ s))%nat).
  { rewrite <- Hm, <- Nat.pow_add_r. f_equal. lia. }
  rewrite Hm.
  pose proof (pow2_pos s) as Hpos. pose proof (pow2_pos (p - S s)) as HposN.
  destruct (fft_blocks_spec (omega (2 * 2 ^ s) 1) (2 ^ s) (2 ^ (p - S s)) (2 ^ p) 0 out)
    as [Hl Hget]; [exact Hpos | lia | lia | nia |].
  cbv zeta in Hl, Hget. rewrite <- Hn in Hl, Hget.
  change (0 * (2 * 2 ^ s))%nat with 0%nat in Hl, Hget.
  split; [exact Hl|]. intros i Hi. now rewrite (Hget i Hi).
Qed.

(** ** The fast transform *)

(** After [s] stages, block [b] of [2 ^ s] entries holds the transform of
    the [2 ^ s] samples of stride [2 ^ q] that start at the bit reversal of
    [b], where [s + q = p]. *)
Lemma fft_stages_invariant x p out0 :
  (p <= 30)%nat ->
  length out0 = (2 ^ p)%nat ->
  (forall j, (j < 2 ^ p)%nat -> get out0 j = get x (bitrev p j)) ->
  forall s q, (s + q = p)%nat ->
    let out := fold_left (fft_stage (2 ^ p)) (seq 1 s) out0 in
    length out = (2 ^ p)%nat
    /\ forall b j, (b < 2 ^ q)%nat -> (j < 2 ^ s)%nat ->
         get out (b * 2 ^ s + j) = strided_dft x (2 ^ s) (2 ^ q) (bitrev q b) j.
Proof.
  intros Hp30 Hlen H0. induction s as [|s IH]; intros q Hsq; cbv zeta.
  - simpl fold_left. split; [exact Hlen|]. intros b j Hb Hj.
    assert (q = p) by lia. subst q.
    change (2 ^ 0)%nat with 1%nat in *. assert (j = 0)%nat by lia. subst j.
    rewrite Nat.mul_1_r, Nat.add_0_r, H0 by exact Hb.
    unfold strided_dft. cbn [Csum].
    rewrite Nat.mul_0_l, Nat.add_0_l, omega_0. cring.
  - destruct (IH (S q)) as [Hl Hget]; [lia|].
    rewrite seq_S, fold_left_app. simpl fold_left.
    set (out := fold_left (fft_stage (2 ^ p)) (seq 1 s) out0) in *.
    destruct (fft_stage_spec p (1 + s) out) as [Hl' Hget'];
      [lia | exact Hp30 | exact Hl |].
    split; [exact Hl'|]. intros b j Hb Hj.
    change (1 + s)%nat with (S s) in *.
    assert (Hm : (2 ^ S s = 2 * 2 ^ s)%nat) by apply Nat.pow_succ_r'.
    assert (Hq : (2 ^ S q = 2 * 2 ^ q)%nat) by apply Nat.pow_succ_r'.
    assert (Hp : (2 ^ p = 2 ^ q * 2 ^ S s)%nat).
    { rewrite <- Nat.pow_add_r. f_equal. lia. }
    pose proof (pow2_pos s) as Hpos.
    assert (Hidx : (b * 2 ^ S s + j < 2 ^ p)%nat).
    { pose proof (Nat.mul_le_mono_r (S b) (2 ^ q) (2 ^ S s) ltac:(lia)) as H.
      rewrite Nat.mul_succ_l in H. lia. }
    rewrite Hget' by exact Hidx.
    unfold stage_value.
    destruct (block_index (2 ^ S s) b j Hj) as [Hmod _]. rewrite Hmod.
    replace (2 ^ S s / 2)%nat with (2 ^ s)%nat
      by (rewrite Hm, Nat.mul_comm, Nat.div_mul; lia).
    rewrite !Cpow_omega.
    destruct (Nat.ltb_spec j (2 ^ s)) as [Hlow | Hhigh].
    + replace (b * 2 ^ S s + j)%nat with ((2 * b) * 2 ^ s + j)%nat by lia.
      replace (2 * b * 2 ^ s + j + 2 ^ s)%nat with ((2 * b + 1) * 2 ^ s + j)%nat by lia.
      rewrite !Hget by lia.
      rewrite bitrev_even, bitrev_odd, Hm, Hq.
      rewrite (Nat.add_comm (2 ^ q)). symmetry. apply radix2_low. exact Hpos.
    + assert (Hj0 : exists j0, j = (j0 + 2 ^ s)%nat) by (exists (j - 2 ^ s)%nat; lia).
      destruct Hj0 as [j0 ->]. rewrite Nat.add_sub.
      replace (b * 2 ^ S s + (j0 + 2 ^ s) - 2 ^ s)%nat
        with ((2 * b) * 2 ^ s + j0)%nat by lia.
      replace (b * 2 ^ S s + (j0 + 2 ^ s))%nat
        with ((2 * b + 1) * 2 ^ s + j0)%nat by lia.
      rewrite !Hget by lia.
      rewrite bitrev_even, bitrev_odd, Hm, Hq.
      rewrite (Nat.add_comm (2 ^ q)).
      symmetry. apply radix2_high. exact Hpos.
Qed.

Lemma normalize_spec n out :
  length out = n ->
  length (normalize n out) = n
  /\ forall i, (i < n)%nat -> get (normalize n out) i = Cdivr (get out i) (INR n).
Proof.
  intros Hlen. unfold normalize.
  destruct (fold_pointwise (fun o i => upd i (Cdivr (get o i) (INR n)) o)
                           (fun _ v => Cdivr v (INR n)) n)
    with (m := n) (out := out) as [Hl Hget]; try lia.
  - intros o i Hi Hn. split; [apply length_upd|]. split.
    + apply get_upd_eq. lia.
    + intros j Hj. apply get_upd_neq. auto.
  - split; [lia|]. intros i Hi. rewrite Hget.
    apply Nat.ltb_lt in Hi. now rewrite Hi.
Qed.

Lemma strided_dft_full x n k :
  (RtoC (1 / INR n) * strided_dft x n 1 0 k)%C = dft_formula x n k.
Proof.
  unfold dft_formula, strided_dft. f_equal. apply Csum_ext. intros l _.
  rewrite Nat.mul_1_r, Nat.add_0_r. unfold omega. do 2 f_equal.
  rewrite mult_INR. unfold Rdiv. ring.
Qed.

(** The fast path computes the normalized transform, as long as the widths
    of its stages are computed without overflow. *)
Lemma fft_pow2_spec x p output :
  (p <= 30)%nat ->
  length output = (2 ^ p)%nat ->
  length (fft x (2 ^ p) output) = (2 ^ p)%nat
  /\ forall k, (k < 2 ^ p)%nat -> get (fft x (2 ^ p) output) k = dft_formula x (2 ^ p) k.
Proof.
  intros Hp Hlen. unfold fft.
  rewrite is_power_of_2_pow2. cbn [negb]. rewrite Nat.log2_pow2 by lia.
  destruct (bit_reverse_copy_spec x output p Hlen) as [Hl0 Hget0].
  destruct (fft_stages_invariant x p _ Hp Hl0 Hget0 p 0) as [Hl Hget]; [lia|].
  destruct (normalize_spec (2 ^ p) _ Hl) as [Hln Hgetn].
  split; [exact Hln|]. intros k Hk.
  rewrite Hgetn by exact Hk.
  specialize (Hget 0%nat k (pow2_pos 0) Hk).
  rewrite Nat.mul_0_l, Nat.add_0_l in Hget. rewrite Hget.
  change (bitrev 0 0) with 0%nat. change (2 ^ 0)%nat with 1%nat.
  rewrite Cdivr_scale. apply strided_dft_full.
Qed.

(** [fft] computes the normalized transform: on the direct path for every
    size, on the fast path for the powers of two below [2 ^ 31]. *)
Lemma fft_spec x n output :
  length output = n ->
  (is_power_of_2 (Z.of_nat n) = true -> (Z.of_nat n < 2 ^ 31)%Z) ->
  length (fft x n output) = n
  /\ forall k, (k < n)%nat -> get (fft x n output) k = dft_formula x n k.
Proof.
  intros Hlen Hn.
  destruct (is_power_of_2 (Z.of_nat n)) eqn:E.
  - specialize (Hn eq_refl). destruct (is_power_of_2_inv n E) as [p ->].
    apply fft_pow2_spec; [now apply pow2_below_int_max | exact Hlen].
  - unfold fft. rewrite E. cbn [negb]. now apply dft_spec.
Qed.

(** The same, for a size below [2 ^ 31] of either kind. *)
Lemma fft_spec_bounded x n output :
  length output = n -> (Z.of_nat n < 2 ^ 31)%Z ->
  length (fft x n output) = n
  /\ forall k, (k < n)%nat -> get (fft x n output) k = dft_formula x n k.
Proof. intros Hlen Hn. apply fft_spec; [exact Hlen | intros _; exact Hn]. Qed.


(** C3. For every [n >= 0] and every input of [n] samples, the forward
    transform returns [n] values, and entry [k] is
    [(1/n) * sum_j points[j] * exp (-2 pi i j k / n)]: the sum divided by
    [n].  This holds of [dft] for every [n], and of [fft] for every [n]
    that is not a power of two and every power of two [n < 2 ^ 31].  For
    [n = 0] the spectrum is empty. *)
Theorem forward_transform_formula (points : list C) (n : nat) (output : list C) :
  length points = n -> length output = n ->
  ((is_power_of_2 (Z.of_nat n) = true -> (Z.of_nat n < 2 ^ 31)%Z) ->
   length (fft points n output) = n
   /\ forall k, (k < n)%nat -> get (fft points n output) k = dft_formula points n k)
  /\ (length (dft points n output) = n
      /\ forall k, (k < n)%nat -> get (dft points n output) k = dft_formula points n k)
  /\ (n = O -> fft points n output = [] /\ dft points n output = []).
Proof.
  intros _ Hout.
  split; [intros Hn; now apply fft_spec|]. split; [now apply dft_spec|].
  intros ->. apply length_zero_iff_nil in Hout. subst output.
  split; reflexivity.
Qed.


Lemma forward_transform_formula_witness :
  (length (fft [C1; C0; C0; C0] 4 [C0; C0; C0; C0]) = 4%nat
   /\ forall k, (k < 4)%nat ->
        get (fft [C1; C0; C0; C0] 4 [C0; C0; C0; C0]) k
        = dft_formula [C1; C0; C0; C0] 4 k)
  /\ (length (dft [C1; C0; C0; C0] 4 [C0; C0; C0; C0]) = 4%nat
      /\ forall k, (k < 4)%nat ->
           get (dft [C1; C0; C0; C0] 4 [C0; C0; C0; C0]) k
           = dft_formula [C1; C0; C0; C0] 4 k).
Proof.
  destruct (forward_transform_formula [C1; C0; C0; C0] 4 [C0; C0; C0; C0]
              eq_refl eq_refl) as (Hfft & Hdft & _).
  split; [apply Hfft; intros _; reflexivity | exact Hdft].
Defined.

(** ** The inverse transform *)

Lemma Cmul_integral a b : (a * b)%C = C0 -> a <> C0 -> b = C0.
Proof.
  destruct a as [a1 a2], b as [b1 b2]. unfold Cmul, C0, RtoC; simpl.
  intros H Ha. injection H as H1 H2.
  assert (Hn : (a1 * a1 + a2 * a2 <> 0)%R).
  { intros Hz. apply Ha.
    destruct (Rplus_sqr_eq_0 a1 a2 Hz) as [-> ->]. reflexivity. }
  assert (Hb1 : ((a1 * a1 + a2 * a2) * b1 = 0)%R).
  { replace ((a1 * a1 + a2 * a2) * b1)%R
      with (a1 * (a1 * b1 - a2 * b2) + a2 * (a1 * b2 + a2 * b1))%R by ring.
    rewrite H1, H2. ring. }
  assert (Hb2 : ((a1 * a1 + a2 * a2) * b2 = 0)%R).
  { replace ((a1 * a1 + a2 * a2) * b2)%R
      with (a1 * (a1 * b2 + a2 * b1) - a2 * (a1 * b1 - a2 * b2))%R by ring.
    rewrite H1, H2. ring. }
  apply Rmult_integral in Hb1, Hb2.
  destruct Hb1 as [Hb1 | Hb1], Hb2 as [Hb2 | Hb2]; try contradiction.
  now subst.
Qed.

Lemma geom_telescope theta n :
  ((C1 - expi theta) * Csum (fun k => expi (INR k * theta)) n)%C
  = (C1 - expi (INR n * theta))%C.
Proof.
  induction n as [|n IH].
  - cbn [Csum]. simpl INR. rewrite Rmult_0_l, expi_0. cring.
  - cbn [Csum]. rewrite Cmul_add_distr_l, IH.
    rewrite S_INR, Rmult_plus_distr_r, Rmult_1_l, expi_plus.
    generalize (expi (INR n * theta)), (expi theta). cring.
Qed.

Lemma geom_sum theta n :
  expi theta <> C1 -> expi (INR n * theta) = C1 ->
  Csum (fun k => expi (INR k * theta)) n = C0.
Proof.
  intros Hne H1. apply (Cmul_integral (C1 - expi theta)%C).
  - rewrite geom_telescope, H1. cring.
  - intros Hz. apply Hne. destruct (expi theta) as [c s'].
    unfold Csub, C1, C0, RtoC in *; simpl in *. injection Hz as Hc Hs.
    f_equal; lra.
Qed.

Lemma Csum_const_1 n : Csum (fun _ => C1) n = RtoC (INR n).
Proof.
  induction n as [|n IH]; [reflexivity|].
  cbn [Csum]. rewrite IH, S_INR. cring.
Qed.

(** A root of unity other than the trivial one differs from 1. *)
Lemma expi_root_neq_1 n i j :
  (i < n)%nat -> (j < n)%nat -> i <> j ->
  expi (2 * PI * (INR i - INR j) / INR n) <> C1.
Proof.
  intros Hi Hj Hne H.
  unfold expi, C1, RtoC in H. injection H as Hc _.
  pose proof PI_RGT_0 as Hpi.
  assert (Hn : (0 < INR n)%R) by (apply INR_pos; lia).
  set (r := ((INR i - INR j) / INR n)%R).
  replace (2 * PI * (INR i - INR j) / INR n)%R with (2 * (PI * r))%R in Hc
    by (unfold r; field; lra).
  rewrite cos_2a_sin in Hc.
  assert (Hs : sin (PI * r) = 0%R) by nra.
  assert (Hrn : (r * INR n = INR i - INR j)%R) by (unfold r; field; lra).
  destruct (Nat.lt_total i j) as [Hlt | [Heq | Hgt]]; [|contradiction|].
  - apply lt_INR in Hlt. apply lt_INR in Hj.
    pose proof (pos_INR i).
    assert (Hr : (-1 < r < 0)%R) by (split; nra).
    assert (0 < sin (- (PI * r)))%R by (apply sin_gt_0; nra).
    rewrite sin_neg in *. lra.
  - apply lt_INR in Hgt. apply lt_INR in Hi.
    pose proof (pos_INR j).
    assert (Hr : (0 < r < 1)%R) by (split; nra).
    assert (0 < sin (PI * r))%R by (apply sin_gt_0; nra).
    lra.
Qed.

Lemma expi_root_n n i j :
  (0 < n)%nat -> expi (INR n * (2 * PI * (INR i - INR j) / INR n)) = C1.
Proof.
  intros Hn. pose proof (INR_pos n Hn).
  replace (INR n * (2 * PI * (INR i - INR j) / INR n))%R
    with (2 * INR i * PI + - (2 * INR j * PI))%R by (field; lra).
  rewrite expi_plus, expi_neg, !expi_2PI_n. cring.
Qed.

Lemma Csum_mul_r c f n : Csum (fun i => f i * c)%C n = (Csum f n * c)%C.
Proof.
  induction n as [|n IH]; simpl; [cring|]. rewrite IH. cring.
Qed.

(** The inversion theorem: the inverse sum applied to the normalized
    transform returns the samples. *)
Lemma dft_inversion x spectrum n i :
  (forall k, (k < n)%nat -> get spectrum k = dft_formula x n k) ->
  (i < n)%nat ->
  idft_formula spectrum n i = get x i.
Proof.
  intros Hspec Hi.
  assert (Hn : (0 < INR n)%R) by (apply INR_pos; lia).
  set (theta := fun j => (2 * PI * (INR i - INR j) / INR n)%R).
  unfold idft_formula.
  rewrite (Csum_ext _
    (fun k => Csum (fun j => RtoC (1 / INR n) * get x j
                             * expi (INR k * theta j))%C n)).
  2:{ intros k Hk. rewrite (Hspec k Hk). unfold dft_formula.
      rewrite <- Csum_mul_l, <- Csum_mul_r. apply Csum_ext. intros j _.
      rewrite <- !Cmul_assoc, <- expi_plus. do 3 f_equal.
      unfold theta. field. lra. }
  rewrite Csum_swap.
  rewrite (Csum_ext _
    (fun j => RtoC (1 / INR n) * get x j
              * Csum (fun k => expi (INR k * theta j)) n)%C)
    by (intros j _; apply Csum_mul_l).
  rewrite (Csum_single _ n i Hi).
  - assert (Ht : theta i = 0%R) by (unfold theta; field; lra).
    rewrite Ht.
    rewrite (Csum_ext _ (fun _ => C1))
      by (intros k _; rewrite Rmult_0_r; apply expi_0).
    rewrite Csum_const_1.
    apply Ceq; cunfold; field; lra.
  - intros j Hj Hne.
    rewrite geom_sum; [cring | |].
    + apply expi_root_neq_1; auto.
    + apply expi_root_n. lia.
Qed.

Lemma idft_term_formula coefficients n i k :
  idft_term coefficients n i k
  = (get coefficients k * expi (2 * PI * INR k * INR i / INR n)%R)%C.
Proof.
  unfold idft_term. f_equal. unfold cexp, expi; cunfold.
  replace ((2 * PI * 0 - 0 * 1) * INR k * INR i / INR n)%R with 0%R
    by (unfold Rdiv; ring).
  replace ((2 * PI * 1 + 0 * 0) * INR k * INR i / INR n)%R
    with (2 * PI * INR k * INR i / INR n)%R by (unfold Rdiv; ring).
  rewrite exp_0. apply Ceq; simpl; ring.
Qed.

Lemma idft_body_spec coefficients n out i :
  (i < length out)%nat ->
  length (idft_body coefficients n out i) = length out
  /\ get (idft_body coefficients n out i) i = idft_formula coefficients n i
  /\ forall j, j <> i -> get (idft_body coefficients n out i) j = get out j.
Proof.
  intros Hi. unfold idft_body.
  destruct (acc_loop (idft_term coefficients n i) i n (upd i C0 out))
    as (Hl & Hat & Hother); [now rewrite length_upd|].
  rewrite length_upd in Hl. split; [exact Hl|]. split.
  - rewrite Hat, get_upd_eq, Cadd_0_l by exact Hi.
    apply Csum_ext. intros k _. apply idft_term_formula.
  - intros j Hj. rewrite Hother, get_upd_neq by auto. reflexivity.
Qed.

Lemma idft_loop_spec coefficients n output :
  length output = n ->
  length (fold_left (idft_body coefficients n) (seq 0 n) output) = n
  /\ forall i, (i < n)%nat ->
       get (fold_left (idft_body coefficients n) (seq 0 n) output) i
       = idft_formula coefficients n i.
Proof.
  intros Hlen.
  destruct (fold_pointwise (idft_body coefficients n)
                           (fun i _ => idft_formula coefficients n i) n)
    with (m := n) (out := output) as [Hl Hget]; try lia.
  - intros out i Hi Hn. apply idft_body_spec. lia.
  - split; [lia|]. intros i Hi. rewrite Hget.
    apply Nat.ltb_lt in Hi. now rewrite Hi.
Qed.

Lemma Cconj_sum f n : Cconj (Csum f n) = Csum (fun i => Cconj (f i)) n.
Proof.
  induction n as [|n IH]; cbn [Csum]; [cring|]. rewrite <- IH. cring.
Qed.

Lemma Cconj_mul a b : Cconj (a * b)%C = (Cconj a * Cconj b)%C.
Proof. cring. Qed.

(** The conjugation path of [ifft] computes the inverse sum. *)
Lemma conj_dft_formula coefficients temp n i :
  (0 < n)%nat ->
  (forall k, (k < n)%nat -> get temp k = Cmulr (Cconj (get coefficients k)) (INR n)) ->
  Cconj (dft_formula temp n i) = idft_formula coefficients n i.
Proof.
  intros Hn Htemp. pose proof (INR_pos n Hn) as Hpos.
  unfold dft_formula, idft_formula.
  rewrite Cconj_mul, Cconj_sum, <- Csum_mul_l.
  apply Csum_ext. intros k Hk.
  rewrite (Htemp k Hk), Cconj_mul.
  replace (-2 * PI * INR k * INR i / INR n)%R
    with (- (2 * PI * INR k * INR i / INR n))%R by (unfold Rdiv; ring).
  rewrite expi_neg.
  generalize (expi (2 * PI * INR k * INR i / INR n)), (get coefficients k).
  intros e c. apply Ceq; cunfold; simpl; field; lra.
Qed.

Lemma ifft_direct_spec temp coefficients n output :
  is_power_of_2 (Z.of_nat n) = false -> length output = n ->
  exists out,
    ifft temp coefficients n output = Some out
    /\ length out = n
    /\ forall i, (i < n)%nat -> get out i = idft_formula coefficients n i.
Proof.
  intros E Hlen. unfold ifft. rewrite E. cbn [negb].
  destruct (idft_loop_spec coefficients n output Hlen) as [Hl Hget].
  eexists. split; [reflexivity|]. split; assumption.
Qed.

Lemma ifft_pow2_spec temp coefficients n output :
  is_power_of_2 (Z.of_nat n) = true -> (Z.of_nat n < 2 ^ 31)%Z ->
  length temp = n -> length output = n ->
  exists out,
    ifft (Some temp) coefficients n output = Some out
    /\ length out = n
    /\ forall i, (i < n)%nat -> get out i = idft_formula coefficients n i.
Proof.
  intros E Hbound Htemp Hlen. unfold ifft. rewrite E. cbn [negb].
  destruct (is_power_of_2_inv n E) as [p Hp].
  assert (Hn : (0 < n)%nat) by (rewrite Hp; apply pow2_pos).
  set (fill := fun tmp i => upd i (Cmulr (Cconj (get coefficients i)) (INR n)) tmp).
  destruct (fold_pointwise fill
              (fun i _ => Cmulr (Cconj (get coefficients i)) (INR n)) n)
    with (m := n) (out := temp) as [Hlt Hgett]; try lia.
  { intros o i Hi Hno. unfold fill. split; [apply length_upd|]. split.
    - apply get_upd_eq. lia.
    - intros j Hj. apply get_upd_neq. auto. }
  set (temp' := fold_left fill (seq 0 n) temp) in *.
  destruct (fft_spec_bounded temp' n output Hlen Hbound) as [Hlf Hgetf].
  set (spectrum := fft temp' n output) in *.
  set (cj := fun o i => upd i (Cconj (get o i)) o).
  destruct (fold_pointwise cj (fun _ v => Cconj v) n)
    with (m := n) (out := spectrum) as [Hlc Hgetc]; try lia.
  { intros o i Hi Hno. unfold cj. split; [apply length_upd|]. split.
    - apply get_upd_eq. lia.
    - intros j Hj. apply get_upd_neq. auto. }
  eexists. split; [reflexivity|]. split; [fold cj; lia|].
  intros i Hi. fold cj. rewrite Hgetc.
  assert (Hb : (i <? n)%nat = true) by now apply Nat.ltb_lt.
  rewrite Hb, Hgetf by exact Hi.
  apply conj_dft_formula; [exact Hn|].
  intros k Hk. rewrite Hgett.
  apply Nat.ltb_lt in Hk. now rewrite Hk.
Qed.

(** The two paths of the round trip. *)
Lemma round_trip_from_formula x n spectrum out :
  length x = n -> length spectrum = n -> length out = n ->
  (is_power_of_2 (Z.of_nat n) = true -> (Z.of_nat n < 2 ^ 31)%Z) ->
  (forall i, (i < n)%nat -> get out i = idft_formula (fft x n spectrum) n i) ->
  out = x.
Proof.
  intros Hx Hspec Hl Hbound Hget.
  destruct (fft_spec x n spectrum Hspec Hbound) as [Hlf Hgetf].
  apply get_ext; [congruence|].
  intros i Hi. rewrite Hl in Hi. rewrite (Hget i Hi).
  now apply dft_inversion.
Qed.

Lemma ifft_fft_direct x n spectrum output temp :
  length x = n -> length spectrum = n -> length output = n ->
  is_power_of_2 (Z.of_nat n) = false ->
  ifft temp (fft x n spectrum) n output = Some x.
Proof.
  intros Hx Hspec Hout E.
  destruct (ifft_direct_spec temp (fft x n spectrum) n output E Hout)
    as (out & -> & Hl & Hget).
  f_equal. apply (round_trip_from_formula x n spectrum); try assumption.
  rewrite E. discriminate.
Qed.

Lemma ifft_fft_pow2 x n spectrum output temp :
  length x = n -> length spectrum = n -> length output = n ->
  is_power_of_2 (Z.of_nat n) = true -> (Z.of_nat n < 2 ^ 31)%Z ->
  length temp = n ->
  ifft (Some temp) (fft x n spectrum) n output = Some x.
Proof.
  intros Hx Hspec Hout E Hbound Htemp.
  destruct (ifft_pow2_spec temp (fft x n spectrum) n output E Hbound Htemp Hout)
    as (out & -> & Hl & Hget).
  f_equal. apply (round_trip_from_formula x n spectrum); try assumption.
  intros _. exact Hbound.
Qed.



(** Both paths on concrete sizes. *)
Example round_trip_size_2 :
  ifft (Some [C0; C0]) (fft [C1; Ci] 2 [C0; C0]) 2 [C0; C0] = Some [C1; Ci].
Proof. apply ifft_fft_pow2; reflexivity. Qed.

Example round_trip_size_3 :
  ifft None (fft [C1; Ci; C0] 3 [C0; C0; C0]) 3 [C0; C0; C0] = Some [C1; Ci; C0].
Proof. apply ifft_fft_direct; reflexivity. Qed.

(** * Further properties of the code *)

(** ** [is_power_of_2] and [next_power_of_2] *)

Lemma is_power_of_2_Z_pow2 p : (0 <= p)%Z -> is_power_of_2 (2 ^ p) = true.
Proof.
  intros Hp. rewrite <- (Z2Nat.id p Hp).
  change 2%Z with (Z.of_nat 2). rewrite <- Nat2Z.inj_pow.
  apply is_power_of_2_pow2.
Qed.

Lemma is_power_of_2_Z_inv n :
  is_power_of_2 n = true -> exists p, (0 <= p)%Z /\ n = (2 ^ p)%Z.
Proof.
  intros H.
  assert (Hpos : (0 < n)%Z).
  { unfold is_power_of_2 in H. apply andb_prop in H. now apply Z.ltb_lt. }
  rewrite <- (Z2Nat.id n) in H by lia.
  destruct (is_power_of_2_inv _ H) as [p Hp].
  exists (Z.of_nat p). split; [lia|].
  rewrite <- (Z2Nat.id n) by lia. rewrite Hp, Nat2Z.inj_pow. reflexivity.
Qed.

(** [is_power_of_2] accepts exactly the powers of two; zero and the
    negative numbers are rejected. *)
Theorem is_power_of_2_iff (n : Z) :
  is_power_of_2 n = true <-> exists p, (0 <= p)%Z /\ n = (2 ^ p)%Z.
Proof.
  split.
  - apply is_power_of_2_Z_inv.
  - intros (p & Hp & ->). now apply is_power_of_2_Z_pow2.
Qed.

(** The value of [next_power_of_2] on every [size_t] from 2 on, before the
    final wrap-around. *)
Lemma next_power_of_2_wrap w n :
  (0 < w <= 64)%Z -> (2 <= n < 2 ^ w)%Z ->
  next_power_of_2 w n = wrap w (2 ^ (Z.log2 (n - 1) + 1)).
Proof.
  intros Hw Hn.
  assert (Hwide : (0xFFFFFFFF <? SIZE_MAX w)%Z = false -> (w <= 32)%Z).
  { intros H. apply Z.ltb_ge in H. unfold SIZE_MAX in H.
    destruct (Z.le_gt_cases w 32) as [|Hgt]; [assumption|].
    assert (2 ^ 33 <= 2 ^ w)%Z by (apply Z.pow_le_mono_r; lia).
    change (2 ^ 33)%Z with 8589934592%Z in *. lia. }
  unfold next_power_of_2.
  destruct (Z.eqb_spec n 0); [lia|].
  assert (Hx : wrap w (n - 1) = (n - 1)%Z) by (unfold wrap; apply Z.mod_small; lia).
  rewrite Hx.
  pose proof (cascade_smeared w (n - 1)) as Hs. cbv zeta in Hs.
  set (L := if (0xFFFFFFFF <? SIZE_MAX w)%Z then 64%Z else 32%Z) in *.
  assert (HwL : (w <= L /\ 0 < L)%Z).
  { unfold L. destruct (0xFFFFFFFF <? SIZE_MAX w)%Z; [lia|].
    split; [now apply Hwide | lia]. }
  apply smeared_full in Hs; [|split; [lia|] | lia].
  - rewrite Hs, Z.ones_equiv. f_equal. lia.
  - assert (2 ^ w <= 2 ^ L)%Z by (apply Z.pow_le_mono_r; lia). lia.
Qed.

(** Above the largest power of two of the type the result wraps around to
    zero, which is not a power of two. *)
Theorem next_power_of_2_overflow (w n : Z) :
  (0 < w <= 64)%Z -> (2 ^ (w - 1) < n < 2 ^ w)%Z ->
  next_power_of_2 w n = 0%Z
  /\ is_power_of_2 (next_power_of_2 w n) = false.
Proof.
  intros Hw Hn.
  assert (Hpw : (2 ^ w = 2 * 2 ^ (w - 1))%Z).
  { replace w with (Z.succ (w - 1)) at 1 by lia. apply Z.pow_succ_r. lia. }
  assert (H1 : (0 < 2 ^ (w - 1))%Z) by (apply Z.pow_pos_nonneg; lia).
  assert (Hv : next_power_of_2 w n = 0%Z).
  { rewrite next_power_of_2_wrap by lia.
    assert (Hlog : Z.log2 (n - 1) = (w - 1)%Z).
    { apply Z.log2_unique; [lia|]. unfold Z.succ.
      replace (w - 1 + 1)%Z with w by lia. lia. }
    rewrite Hlog. replace (w - 1 + 1)%Z with w by lia.
    unfold wrap. apply Z.mod_same. lia. }
  split; [exact Hv|]. rewrite Hv. reflexivity.
Qed.

Lemma next_power_of_2_overflow_witness :
  next_power_of_2 64 (2 ^ 63 + 1) = 0%Z
  /\ is_power_of_2 (next_power_of_2 64 (2 ^ 63 + 1)) = false.
Proof.
  apply (next_power_of_2_overflow 64 (2 ^ 63 + 1)); [lia | vm_compute; split; reflexivity].
Defined.

(** Within the range of the type the result of [next_power_of_2] passes
    [is_power_of_2], is less than twice [n], and is [n] itself when [n] is
    a power of two already. *)
Theorem next_power_of_2_is_power_of_2 (w n : Z) :
  (0 < w <= 64)%Z -> (1 <= n <= 2 ^ (w - 1))%Z ->
  is_power_of_2 (next_power_of_2 w n) = true
  /\ (n <= next_power_of_2 w n < 2 * n)%Z
  /\ (is_power_of_2 n = true -> next_power_of_2 w n = n).
Proof.
  intros Hw Hn.
  destruct (Z.eq_dec n 1) as [-> | Hne].
  - rewrite next_power_of_2_one by lia. repeat split; lia.
  - pose proof (Z.log2_nonneg (n - 1)) as Hlog.
    destruct (Z.log2_spec (n - 1)) as [Hlo Hhi]; [lia|].
    unfold Z.succ in Hhi.
    rewrite next_power_of_2_value by lia.
    assert (Hpow : (2 ^ (Z.log2 (n - 1) + 1) = 2 * 2 ^ Z.log2 (n - 1))%Z).
    { rewrite Z.pow_add_r by lia. simpl (2 ^ 1)%Z. lia. }
    split; [apply is_power_of_2_Z_pow2; lia|].
    split; [lia|].
    intros Hp. apply is_power_of_2_Z_inv in Hp. destruct Hp as (p & Hp0 & ->).
    assert (0 < p)%Z.
    { destruct (Z.eq_dec p 0) as [-> | ]; [simpl in Hne; lia | lia]. }
    assert (Hl : Z.log2 (2 ^ p - 1) = (p - 1)%Z).
    { apply Z.log2_unique; [lia|]. unfold Z.succ.
      replace (p - 1 + 1)%Z with p by lia.
      assert (2 ^ p = 2 * 2 ^ (p - 1))%Z.
      { replace p with (Z.succ (p - 1)) at 1 by lia. apply Z.pow_succ_r. lia. }
      assert (0 < 2 ^ (p - 1))%Z by (apply Z.pow_pos_nonneg; lia).
      lia. }
    rewrite Hl. f_equal. lia.
Qed.

Lemma next_power_of_2_is_power_of_2_witness :
  is_power_of_2 (next_power_of_2 64 1000) = true
  /\ (1000 <= next_power_of_2 64 1000 < 2 * 1000)%Z
  /\ (is_power_of_2 1000 = true -> next_power_of_2 64 1000 = 1000%Z).
Proof.
  apply (next_power_of_2_is_power_of_2 64 1000); [lia | vm_compute; split; discriminate].
Defined.

(** ** [bit_reverse_copy] *)

(** On [2 ^ p] samples [bit_reverse_copy] fills the whole output with a
    rearrangement of the input, and a second pass restores the input. *)
Theorem bit_reverse_copy_involutive (input output output' : list C) (p : nat) :
  length input = (2 ^ p)%nat -> length output = (2 ^ p)%nat ->
  length output' = (2 ^ p)%nat ->
  Permutation input (bit_reverse_copy input output (2 ^ p))
  /\ bit_reverse_copy (bit_reverse_copy input output (2 ^ p)) output' (2 ^ p)
     = input.
Proof.
  intros Hin Hout Hout'.
  destruct (bit_reverse_copy_spec input output p Hout) as [Hl Hget].
  split.
  - apply (Permutation_nth _ _ C0). cbv zeta. rewrite Hin.
    split; [exact Hl|]. exists (bitrev p). split; [|split].
    + intros x _. apply bitrev_lt.
    + intros x y Hx Hy E.
      rewrite <- (bitrev_involutive p x Hx), <- (bitrev_involutive p y Hy).
      now rewrite E.
    + intros x Hx. apply (Hget x Hx).
  - destruct (bit_reverse_copy_spec (bit_reverse_copy input output (2 ^ p))
                                    output' p Hout') as [Hl2 Hget2].
    apply get_ext; [congruence|]. intros j Hj. rewrite Hl2 in Hj.
    rewrite Hget2, Hget by (try apply bitrev_lt; exact Hj).
    now rewrite bitrev_involutive.
Qed.

Lemma bit_reverse_copy_involutive_witness :
  Permutation [C0; C1; Ci; C0] (bit_reverse_copy [C0; C1; Ci; C0] [C0; C0; C0; C0] (2 ^ 2))
  /\ bit_reverse_copy (bit_reverse_copy [C0; C1; Ci; C0] [C0; C0; C0; C0] (2 ^ 2))
                      [C1; C1; C1; C1] (2 ^ 2)
     = [C0; C1; Ci; C0].
Proof.
  apply (bit_reverse_copy_involutive [C0; C1; Ci; C0] [C0; C0; C0; C0]
           [C1; C1; C1; C1] 2); reflexivity.
Defined.

(** ** The transforms as linear maps *)

(** Both paths of [ifft] return the inverse sum, without normalization:
    entry [i] is [sum_k coefficients[k] * exp (2 pi i k i / n)], for
    [n < 2 ^ 31] (the conjugation path calls [fft]). *)
Theorem ifft_formula (temp coefficients output : list C) (n : nat) :
  length temp = n -> length output = n -> (Z.of_nat n < 2 ^ 31)%Z ->
  exists out,
    ifft (Some temp) coefficients n output = Some out
    /\ length out = n
    /\ forall i, (i < n)%nat -> get out i = idft_formula coefficients n i.
Proof.
  intros Htemp Hout Hbound.
  destruct (is_power_of_2 (Z.of_nat n)) eqn:E.
  - now apply ifft_pow2_spec.
  - now apply ifft_direct_spec.
Qed.

Lemma ifft_formula_witness :
  exists out,
    ifft (Some [C0; C0]) [C1; Ci] 2 [C0; C0] = Some out
    /\ length out = 2%nat
    /\ forall i, (i < 2)%nat -> get out i = idft_formula [C1; Ci] 2 i.
Proof.
  apply (ifft_formula [C0; C0] [C1; Ci] [C0; C0] 2); reflexivity.
Defined.

(** The inversion theorem in the other direction: the normalized
    transform applied to the inverse sum returns the coefficients. *)
Lemma idft_inversion c samples n m :
  (forall j, (j < n)%nat -> get samples j = idft_formula c n j) ->
  (m < n)%nat ->
  dft_formula samples n m = get c m.
Proof.
  intros Hs Hm.
  assert (Hn : (0 < INR n)%R) by (apply INR_pos; lia).
  set (theta := fun k => (2 * PI * (INR k - INR m) / INR n)%R).
  unfold dft_formula.
  rewrite (Csum_ext _
    (fun j => Csum (fun k => get c k * expi (INR j * theta k))%C n)).
  2:{ intros j Hj. rewrite (Hs j Hj). unfold idft_formula.
      rewrite <- Csum_mul_r. apply Csum_ext. intros k _.
      rewrite <- Cmul_assoc, <- expi_plus. do 2 f_equal.
      unfold theta. field. lra. }
  rewrite Csum_swap.
  rewrite (Csum_ext _
    (fun k => get c k * Csum (fun j => expi (INR j * theta k)) n)%C)
    by (intros k _; apply Csum_mul_l).
  rewrite (Csum_single _ n m Hm).
  - assert (Ht : theta m = 0%R) by (unfold theta; field; lra).
    rewrite Ht.
    rewrite (Csum_ext _ (fun _ => C1))
      by (intros k _; rewrite Rmult_0_r; apply expi_0).
    rewrite Csum_const_1.
    apply Ceq; cunfold; field; lra.
  - intros k Hk Hne.
    rewrite geom_sum; [cring | |].
    + apply expi_root_neq_1; auto.
    + apply expi_root_n. lia.
Qed.

(** [fft] undoes [ifft]: the round trip holds in this direction as well,
    for [n < 2 ^ 31]. *)
Theorem fft_ifft_round_trip (c temp buffer output : list C) (n : nat) :
  length c = n -> length temp = n -> length buffer = n -> length output = n ->
  (Z.of_nat n < 2 ^ 31)%Z ->
  exists samples,
    ifft (Some temp) c n buffer = Some samples
    /\ fft samples n output = c.
Proof.
  intros Hc Htemp Hbuf Hout Hbound.
  assert (Hi : exists out,
             ifft (Some temp) c n buffer = Some out
             /\ length out = n
             /\ forall i, (i < n)%nat -> get out i = idft_formula c n i).
  { destruct (is_power_of_2 (Z.of_nat n)) eqn:E.
    - now apply ifft_pow2_spec.
    - now apply ifft_direct_spec. }
  destruct Hi as (samples & Hifft & Hl & Hget).
  exists samples. split; [exact Hifft|].
  destruct (fft_spec_bounded samples n output Hout Hbound) as [Hlf Hgetf].
  apply get_ext; [congruence|]. intros m Hm. rewrite Hlf in Hm.
  rewrite (Hgetf m Hm). now apply idft_inversion.
Qed.

Lemma fft_ifft_round_trip_witness :
  exists samples,
    ifft (Some [C0; C0]) [C1; Ci] 2 [C0; C0] = Some samples
    /\ fft samples 2 [C0; C0] = [C1; Ci].
Proof.
  apply (fft_ifft_round_trip [C1; Ci] [C0; C0] [C0; C0] [C0; C0] 2);
    reflexivity.
Defined.

Lemma get_map_seq (f : nat -> C) n i :
  (i < n)%nat -> get (map f (seq 0 n)) i = f i.
Proof.
  intros Hi. unfold get.
  rewrite (nth_indep _ C0 (f 0%nat)) by (rewrite length_map, length_seq; exact Hi).
  rewrite map_nth, seq_nth by exact Hi. reflexivity.
Qed.

(** [fft] is linear: the spectrum of [a x + b y] is [a] times the spectrum
    of [x] plus [b] times the spectrum of [y], for [n < 2 ^ 31]. *)
Theorem fft_linear (a b : C) (x y : list C) (n : nat) (output : list C) (k : nat) :
  length x = n -> length y = n -> length output = n -> (k < n)%nat ->
  (Z.of_nat n < 2 ^ 31)%Z ->
  get (fft (map (fun j => a * get x j + b * get y j)%C (seq 0 n)) n output) k
  = (a * get (fft x n output) k + b * get (fft y n output) k)%C.
Proof.
  intros _ _ Hout Hk Hbound.
  destruct (fft_spec_bounded (map (fun j => a * get x j + b * get y j)%C (seq 0 n)) n
                             output Hout Hbound) as [_ Hz].
  destruct (fft_spec_bounded x n output Hout Hbound) as [_ Hx].
  destruct (fft_spec_bounded y n output Hout Hbound) as [_ Hy].
  rewrite Hz, Hx, Hy by exact Hk. unfold dft_formula.
  rewrite (Csum_ext _
    (fun j => a * (get x j * expi (-2 * PI * INR j * INR k / INR n))
              + b * (get y j * expi (-2 * PI * INR j * INR k / INR n)))%C).
  - rewrite Csum_add, !Csum_mul_l. cring.
  - intros j Hj. rewrite get_map_seq by exact Hj. cring.
Qed.

Lemma fft_linear_witness :
  get (fft (map (fun j => Ci * get [C1; C0] j + C1 * get [C0; C1] j)%C (seq 0 2))
           2 [C0; C0]) 1
  = (Ci * get (fft [C1; C0] 2 [C0; C0]) 1 + C1 * get (fft [C0; C1] 2 [C0; C0]) 1)%C.
Proof.
  apply (fft_linear Ci C1 [C1; C0] [C0; C1] 2 [C0; C0] 1); try reflexivity; lia.
Defined.

(** The transform of a pure tone. *)
Lemma tone_formula c f n samples k :
  (f < n)%nat -> (k < n)%nat ->
  (forall j, (j < n)%nat ->
     get samples j = (c * expi (2 * PI * INR f * INR j / INR n))%C) ->
  dft_formula samples n k = if (k =? f)%nat then c else C0.
Proof.
  intros Hf Hk Hs.
  assert (Hn : (0 < INR n)%R) by (apply INR_pos; lia).
  set (theta := (2 * PI * (INR f - INR k) / INR n)%R).
  unfold dft_formula.
  rewrite (Csum_ext _ (fun j => c * expi (INR j * theta))%C).
  2:{ intros j Hj. rewrite (Hs j Hj), <- Cmul_assoc, <- expi_plus. do 2 f_equal.
      unfold theta. field. lra. }
  rewrite Csum_mul_l.
  destruct (Nat.eqb_spec k f) as [-> | Hne].
  - assert (Ht : theta = 0%R) by (unfold theta; field; lra).
    rewrite Ht.
    rewrite (Csum_ext _ (fun _ => C1))
      by (intros j _; rewrite Rmult_0_r; apply expi_0).
    rewrite Csum_const_1. apply Ceq; cunfold; field; lra.
  - rewrite geom_sum; [cring | |].
    + apply expi_root_neq_1; auto.
    + apply expi_root_n. lia.
Qed.

(** The spectrum of a pure tone: the samples [c * exp (2 pi i f j / n)] of a
    circle traversed [f] times have the single non-zero entry [c], at index
    [f], for [n < 2 ^ 31].  With [f = 0]: a constant signal has only its
    mean, at index 0. *)
Theorem fft_pure_tone (c : C) (f n : nat) (samples output : list C) (k : nat) :
  (f < n)%nat -> (k < n)%nat -> length samples = n -> length output = n ->
  (Z.of_nat n < 2 ^ 31)%Z ->
  (forall j, (j < n)%nat ->
     get samples j = (c * expi (2 * PI * INR f * INR j / INR n))%C) ->
  get (fft samples n output) k = if (k =? f)%nat then c else C0.
Proof.
  intros Hf Hk _ Hout Hbound Hs.
  destruct (fft_spec_bounded samples n output Hout Hbound) as [_ Hget].
  rewrite (Hget k Hk). now apply tone_formula.
Qed.

Lemma fft_pure_tone_witness :
  get (fft [Ci; Ci; Ci] 3 [C0; C0; C0]) 0 = Ci.
Proof.
  apply (fft_pure_tone Ci 0 3 [Ci; Ci; Ci] [C0; C0; C0] 0); try reflexivity; try lia.
  intros j Hj.
  replace (2 * PI * INR 0 * INR j / INR 3)%R with 0%R
    by (simpl INR; unfold Rdiv; ring).
  rewrite expi_0, Cmul_1_r.
  destruct j as [|[|[|j]]]; try reflexivity; lia.
Defined.

(** ** The comparison function and the results of the analysis *)

(** [compare_coeffs_by_amplitude] is a consistent comparison for [qsort]:
    its values are -1, 0 and 1, swapping the arguments negates it, it is
    negative exactly when the first amplitude is the larger one, zero
    exactly on equal amplitudes, and the order it defines is transitive. *)
Theorem compare_coeffs_consistent (a b c : FourierCoefficient) :
  (compare_coeffs_by_amplitude a b = (-1)%Z
   \/ compare_coeffs_by_amplitude a b = 0%Z
   \/ compare_coeffs_by_amplitude a b = 1%Z)
  /\ compare_coeffs_by_amplitude a b = (- compare_coeffs_by_amplitude b a)%Z
  /\ ((compare_coeffs_by_amplitude a b < 0)%Z <-> (amplitude b < amplitude a)%R)
  /\ (compare_coeffs_by_amplitude a b = 0%Z <-> amplitude a = amplitude b)
  /\ ((compare_coeffs_by_amplitude a b <= 0)%Z ->
      (compare_coeffs_by_amplitude b c <= 0)%Z ->
      (compare_coeffs_by_amplitude a c <= 0)%Z).
Proof.
  split; [|split; [|split; [|split]]].
  - unfold compare_coeffs_by_amplitude.
    destruct (Rgt_dec (amplitude a) (amplitude b)); [auto|].
    destruct (Rlt_dec (amplitude a) (amplitude b)); auto.
  - unfold compare_coeffs_by_amplitude.
    destruct (Rgt_dec (amplitude a) (amplitude b)),
      (Rlt_dec (amplitude a) (amplitude b)),
      (Rgt_dec (amplitude b) (amplitude a)),
      (Rlt_dec (amplitude b) (amplitude a)); try lra; reflexivity.
  - unfold compare_coeffs_by_amplitude.
    destruct (Rgt_dec (amplitude a) (amplitude b));
      [|destruct (Rlt_dec (amplitude a) (amplitude b))];
      split; intros; try lra; try lia.
  - unfold compare_coeffs_by_amplitude.
    destruct (Rgt_dec (amplitude a) (amplitude b));
      [|destruct (Rlt_dec (amplitude a) (amplitude b))];
      split; intros; try lra; try lia.
  - rewrite !compare_coeffs_le. intros. lra.
Qed.

(** Every result of [fourier_analyze], failed or not, is well formed: the
    coefficient array is null exactly when the count is zero, it holds
    [count] coefficients otherwise, and the count exceeds neither the
    number of points nor the requested number. *)
Theorem fourier_analyze_invariant qsort heap points n k :
  (forall cmp l, Permutation l (qsort cmp l)) ->
  let r := fourier_analyze qsort heap points n k in
  result_wf r
  /\ (count r <= n)%nat /\ (count r <= k)%nat
  /\ (coefficients r = None <-> count r = O).
Proof.
  intros Hperm r. split; [now apply fourier_analyze_wf|]. subst r.
  destruct (coefficients (fourier_analyze qsort heap points n k)) as [cs|] eqn:E.
  - destruct (fourier_analyze_some _ _ _ _ _ _ E) as (buf & _ & Hn & Hk & -> & _).
    split; [lia|]. split; [lia|]. split; [discriminate | lia].
  - assert (Hc : count (fourier_analyze qsort heap points n k) = O).
    { pose proof (fourier_analyze_wf qsort heap points n k Hperm) as Hwf.
      unfold result_wf in Hwf. now rewrite E in Hwf. }
    rewrite Hc. split; [lia|]. split; [lia|]. split; reflexivity.
Qed.

Lemma fourier_analyze_invariant_witness :
  let r := fourier_analyze insertion_sort (mkAllocations (Some [C0; C0]) true true)
                           [C1; Ci] 2 5 in
  result_wf r
  /\ (count r <= 2)%nat /\ (count r <= 5)%nat
  /\ (coefficients r = None <-> count r = O).
Proof.
  apply (fourier_analyze_invariant insertion_sort
           (mkAllocations (Some [C0; C0]) true true) [C1; Ci] 2 5).
  intros cmp l. apply insertion_sort_perm.
Defined.

Lemma nth_firstn_lt {A : Type} (l : list A) (d : A) m i :
  (i < m)%nat -> nth i (firstn m l) d = nth i l d.
Proof.
  revert m i. induction l as [|x l IH]; intros m i Hi.
  - rewrite firstn_nil. reflexivity.
  - destruct m as [|m]; [lia|]. destruct i as [|i]; [reflexivity|].
    simpl. apply IH. lia.
Qed.

(** A list of real numbers has one arrangement in non-increasing order. *)
Lemma StronglySorted_Rge_unique (l1 l2 : list R) :
  StronglySorted Rge l1 -> StronglySorted Rge l2 -> Permutation l1 l2 -> l1 = l2.
Proof.
  revert l2. induction l1 as [|x t IH]; intros l2 H1 H2 Hp.
  - apply Permutation_nil in Hp. now subst.
  - destruct l2 as [|y t'].
    + apply Permutation_sym, Permutation_nil in Hp. discriminate.
    + inversion H1 as [|? ? Hs1 Hall1]; subst.
      inversion H2 as [|? ? Hs2 Hall2]; subst.
      rewrite Forall_forall in Hall1, Hall2.
      assert (Hxy : x = y).
      { assert (Hx : In x (y :: t')) by (apply (Permutation_in _ Hp); now left).
        assert (Hy : In y (x :: t)).
        { apply (Permutation_in _ (Permutation_sym Hp)). now left. }
        destruct Hx as [Hx | Hx]; [now subst|].
        destruct Hy as [Hy | Hy]; [now subst|].
        apply Rge_antisym; [now apply Hall1 | now apply Hall2]. }
      subst y. f_equal. apply IH; try assumption.
      now apply Permutation_cons_inv in Hp.
Qed.

(** The amplitudes that an analysis returns do not depend on the order in
    which [qsort] leaves coefficients of equal amplitude: two sorting
    functions that meet the contract of [qsort] give the same sequence of
    amplitudes, and an analysis that asks for fewer coefficients returns
    the first amplitudes of the larger analysis. *)
Theorem analyze_amplitudes_prefix qsort qsort' heap points n k k' buf :
  (forall cmp l, Permutation l (qsort cmp l)) ->
  (forall l, Sorted (fun a b => (compare_coeffs_by_amplitude a b <= 0)%Z)
               (qsort compare_coeffs_by_amplitude l)) ->
  (forall cmp l, Permutation l (qsort' cmp l)) ->
  (forall l, Sorted (fun a b => (compare_coeffs_by_amplitude a b <= 0)%Z)
               (qsort' compare_coeffs_by_amplitude l)) ->
  (1 <= n)%nat -> (1 <= k')%nat -> (k' <= k)%nat ->
  fft_output_buf heap = Some buf ->
  all_coeffs_ok heap = true -> result_ok heap = true ->
  exists cs cs',
    coefficients (fourier_analyze qsort heap points n k) = Some cs
    /\ coefficients (fourier_analyze qsort' heap points n k') = Some cs'
    /\ map amplitude cs' = firstn (Nat.min k' n) (map amplitude cs).
Proof.
  intros Hperm Hsorted Hperm' Hsorted' Hn Hk' Hkk Hbuf Hall Hres.
  rewrite (fourier_analyze_success qsort heap points n k buf) by (auto; lia).
  rewrite (fourier_analyze_success qsort' heap points n k' buf) by auto.
  cbn [coefficients]. do 2 eexists. split; [reflexivity|]. split; [reflexivity|].
  set (all := map (extract_coeff (fft points n buf) n) (seq 0 n)).
  rewrite <- !firstn_map, firstn_firstn.
  replace (Nat.min (Nat.min k' n) (Nat.min k n)) with (Nat.min k' n) by lia.
  f_equal. apply StronglySorted_Rge_unique.
  - apply (Sorted_StronglySorted Rge_transitive).
    apply (Sorted_map_impl (fun a b => (compare_coeffs_by_amplitude a b <= 0)%Z)).
    + intros a b. apply compare_coeffs_le.
    + apply Hsorted'.
  - apply (Sorted_StronglySorted Rge_transitive).
    apply (Sorted_map_impl (fun a b => (compare_coeffs_by_amplitude a b <= 0)%Z)).
    + intros a b. apply compare_coeffs_le.
    + apply Hsorted.
  - apply Permutation_map.
    rewrite <- (Hperm' compare_coeffs_by_amplitude all). apply Hperm.
Qed.

Lemma analyze_amplitudes_prefix_witness :
  exists cs cs',
    coefficients (fourier_analyze insertion_sort
                    (mkAllocations (Some [C0; C0]) true true) [C1; Ci] 2 2)
    = Some cs
    /\ coefficients (fourier_analyze (fun cmp l => insertion_sort cmp (rev l))
                       (mkAllocations (Some [C0; C0]) true true) [C1; Ci] 2 1)
       = Some cs'
    /\ map amplitude cs' = firstn (Nat.min 1 2) (map amplitude cs).
Proof.
  apply (analyze_amplitudes_prefix insertion_sort
           (fun cmp l => insertion_sort cmp (rev l))
           (mkAllocations (Some [C0; C0]) true true) [C1; Ci] 2 2 1 [C0; C0]);
    try reflexivity; try lia.
  - intros cmp l. apply insertion_sort_perm.
  - intros l. apply insertion_sort_sorted. exact compare_coeffs_total.
  - intros cmp l. rewrite <- insertion_sort_perm. apply Permutation_rev.
  - intros l. apply insertion_sort_sorted. exact compare_coeffs_total.
Defined.

(** ** Analysis followed by reconstruction *)

Lemma expi_2PI_Z z : expi (2 * IZR z * PI) = C1.
Proof.
  destruct (Z_le_gt_dec 0 z) as [Hz | Hz].
  - rewrite <- (Z2Nat.id z Hz), <- INR_IZR_INZ. apply expi_2PI_n.
  - replace z with (- Z.of_nat (Z.to_nat (- z)))%Z by lia.
    rewrite opp_IZR, <- INR_IZR_INZ.
    replace (2 * - INR (Z.to_nat (- z)) * PI)%R
      with (- (2 * INR (Z.to_nat (- z)) * PI))%R by ring.
    rewrite expi_neg, expi_2PI_n. cring.
Qed.

Lemma contribution_periodic c t :
  (exists z : Z, frequency c = IZR z) ->
  contribution c (t + 2 * PI) = contribution c t.
Proof.
  intros [z Hz]. unfold contribution. rewrite Hz.
  replace (phase c + (t + 2 * PI) * IZR z)%R
    with ((phase c + t * IZR z) + 2 * IZR z * PI)%R by ring.
  now rewrite expi_plus, expi_2PI_Z, Cmul_1_r.
Qed.

Lemma epicycle_step_eq cs t st i :
  epicycle_step cs t st i
  = ((fst st + contribution (nth i cs coeff0) t)%C,
     option_map (upd (i + 1) (fst st + contribution (nth i cs coeff0) t)%C) (snd st)).
Proof.
  unfold epicycle_step, contribution. cbn [fst snd]. now rewrite cexp_imag.
Qed.

Lemma fold_left_ext {A B : Type} (f g : A -> B -> A) l a :
  (forall x b, f x b = g x b) -> fold_left f l a = fold_left g l a.
Proof.
  intros H. revert a. induction l as [|b l IH]; intros a; simpl; [reflexivity|].
  now rewrite H, IH.
Qed.

(** The coefficients of an analysis have integer frequencies. *)
Lemma analyze_frequencies_integer qsort heap points n k cs :
  (forall cmp l, Permutation l (qsort cmp l)) ->
  coefficients (fourier_analyze qsort heap points n k) = Some cs ->
  forall i, exists z : Z, frequency (nth i cs coeff0) = IZR z.
Proof.
  intros Hperm Hcs i.
  destruct (Nat.lt_ge_cases i (length cs)) as [Hlt | Hge].
  - destruct (fourier_analyze_some _ _ _ _ _ _ Hcs) as (buf & _ & _ & _ & _ & Heq).
    pose proof (nth_In cs coeff0 Hlt) as Hin. rewrite Heq in Hin at 2.
    apply In_firstn in Hin.
    apply (Permutation_in _ (Permutation_sym (Hperm _ _))) in Hin.
    apply in_map_iff in Hin. destruct Hin as (j & <- & _).
    eexists. apply extract_coeff_frequency.
  - rewrite nth_overflow by exact Hge. exists 0%Z. reflexivity.
Qed.

(** The reconstruction of an analysis is periodic: advancing the time by
    [2 pi] gives the same tip and the same trail, so the drawing closes. *)
Theorem epicycles_periodic qsort heap points n k t positions :
  (forall cmp l, Permutation l (qsort cmp l)) ->
  epicycles_at_time (Some (fourier_analyze qsort heap points n k)) (t + 2 * PI)
                    positions
  = epicycles_at_time (Some (fourier_analyze qsort heap points n k)) t positions.
Proof.
  intros Hperm. unfold epicycles_at_time.
  destruct (coefficients (fourier_analyze qsort heap points n k)) as [cs|] eqn:E;
    [|reflexivity].
  destruct (count (fourier_analyze qsort heap points n k) =? 0)%nat; [reflexivity|].
  apply fold_left_ext. intros st i.
  rewrite !epicycle_step_eq, contribution_periodic; [reflexivity|].
  now apply (analyze_frequencies_integer qsort heap points n k).
Qed.

Lemma epicycles_periodic_witness :
  epicycles_at_time
    (Some (fourier_analyze insertion_sort (mkAllocations (Some [C0; C0]) true true)
                           [C1; Ci] 2 2))
    (0 + 2 * PI) (Some [C0; C0; C0])
  = epicycles_at_time
      (Some (fourier_analyze insertion_sort (mkAllocations (Some [C0; C0]) true true)
                             [C1; Ci] 2 2))
      0 (Some [C0; C0; C0]).
Proof.
  apply (epicycles_periodic insertion_sort (mkAllocations (Some [C0; C0]) true true)
           [C1; Ci] 2 2 0 (Some [C0; C0; C0])).
  intros cmp l. apply insertion_sort_perm.
Defined.

Lemma Csum_list_perm l l' : Permutation l l' -> Csum_list l = Csum_list l'.
Proof.
  induction 1 as [|x l l' _ IH|x y l|l l' l'' _ IH1 _ IH2]; simpl.
  - reflexivity.
  - now rewrite IH.
  - cring.
  - congruence.
Qed.

Lemma Csum_list_app l l' : Csum_list (l ++ l') = (Csum_list l + Csum_list l')%C.
Proof.
  induction l as [|x l IH]; simpl; [cring|]. rewrite IH. cring.
Qed.

Lemma Csum_list_map_seq f n : Csum_list (map f (seq 0 n)) = Csum f n.
Proof.
  induction n as [|n IH]; [reflexivity|].
  rewrite seq_S, map_app, Csum_list_app, IH. simpl. cring.
Qed.

Lemma Csum_shift f n : Csum f (S n) = (f O + Csum (fun i => f (S i)) n)%C.
Proof.
  induction n as [|n IH]; [simpl; cring|].
  cbn [Csum] in *. rewrite IH. cring.
Qed.

Lemma Csum_nth {A : Type} (g : A -> C) (d : A) l :
  Csum (fun i => g (nth i l d)) (length l) = Csum_list (map g l).
Proof.
  induction l as [|x l IH]; [reflexivity|].
  cbn [length]. rewrite Csum_shift. simpl. now rewrite IH.
Qed.

(** The contribution of the coefficient of spectrum index [i] at the time
    [2 pi j / n] of sample [j]. *)
Lemma contribution_at_sample spectrum n i j :
  (0 < n)%nat ->
  contribution (extract_coeff spectrum n i) (2 * PI * INR j / INR n)
  = (get spectrum i * expi (2 * PI * INR i * INR j / INR n))%C.
Proof.
  intros Hn. pose proof (INR_pos n Hn) as Hpos.
  unfold contribution, extract_coeff. cbn [amplitude phase frequency].
  rewrite expi_plus, Cmul_assoc, carg_polar. f_equal.
  destruct (i <=? n / 2)%nat.
  - f_equal. field. lra.
  - replace (2 * PI * INR j / INR n * (INR i - INR n))%R
      with (2 * PI * INR i * INR j / INR n + - (2 * INR j * PI))%R by (field; lra).
    rewrite expi_plus, expi_neg, expi_2PI_n. cring.
Qed.

(** When every coefficient is kept, the chain of epicycles passes through
    the samples: at the time [2 pi j / n] the tip is [points[j]], for
    [n < 2 ^ 31]. *)
Theorem full_analysis_reconstructs qsort heap points n k buf positions j :
  (forall cmp l, Permutation l (qsort cmp l)) ->
  length points = n -> (Z.of_nat n < 2 ^ 31)%Z ->
  fft_output_buf heap = Some buf -> length buf = n ->
  all_coeffs_ok heap = true -> result_ok heap = true ->
  (n <= k)%nat -> (j < n)%nat ->
  fst (epicycles_at_time (Some (fourier_analyze qsort heap points n k))
                         (2 * PI * INR j / INR n) positions)
  = get points j.
Proof.
  intros Hperm Hpts Hbound Hbuf Hlen Hall Hres Hk Hj.
  rewrite (fourier_analyze_success qsort heap points n k buf) by (auto; lia).
  set (all := map (extract_coeff (fft points n buf) n) (seq 0 n)).
  set (sorted := qsort compare_coeffs_by_amplitude all).
  assert (Hls : length sorted = n).
  { unfold sorted. rewrite <- (Permutation_length (Hperm _ all)).
    unfold all. now rewrite length_map, length_seq. }
  replace (Nat.min k n) with n by lia.
  rewrite firstn_all2 by lia.
  unfold epicycles_at_time. cbn [coefficients count].
  destruct (Nat.eqb_spec n 0); [lia|].
  rewrite epicycles_tip_only. unfold partial_sum.
  pose proof (Csum_nth (fun c => contribution c (2 * PI * INR j / INR n))
                       coeff0 sorted) as Hsum.
  rewrite Hls in Hsum. rewrite Hsum.
  rewrite <- (Csum_list_perm _ _ (Permutation_map _ (Hperm compare_coeffs_by_amplitude all))).
  unfold all. rewrite map_map, Csum_list_map_seq.
  rewrite (Csum_ext _
    (fun i => get (fft points n buf) i * expi (2 * PI * INR i * INR j / INR n))%C)
    by (intros i _; apply contribution_at_sample; lia).
  destruct (fft_spec_bounded points n buf Hlen Hbound) as [_ Hget].
  now apply (dft_inversion points (fft points n buf) n j).
Qed.

Lemma full_analysis_reconstructs_witness :
  fst (epicycles_at_time
         (Some (fourier_analyze insertion_sort
                  (mkAllocations (Some [C0; C0; C0; C0]) true true)
                  [C1; Ci; C0; C1] 4 4))
         (2 * PI * INR 1 / INR 4) None)
  = get [C1; Ci; C0; C1] 1.
Proof.
  apply (full_analysis_reconstructs insertion_sort
           (mkAllocations (Some [C0; C0; C0; C0]) true true) [C1; Ci; C0; C1] 4 4
           [C0; C0; C0; C0] None 1); try reflexivity; try lia.
  intros cmp l. apply insertion_sort_perm.
Defined.

(** ** Releasing a result *)

(** [fourier_result_free] may be called twice, and on a null pointer: the
    second call does not call [free] again and changes nothing.  A well
    formed result becomes the empty result, and the reconstruction of a
    released result is the origin. *)
Theorem fourier_result_free_safe (result : option FourierResult) :
  let released := fst (fourier_result_free result) in
  fourier_result_free released = (released, false)
  /\ (snd (fourier_result_free result) = true
      <-> exists r cs, result = Some r /\ coefficients r = Some cs)
  /\ (forall r, result = Some r -> result_wf r -> released = Some empty_result)
  /\ (forall t positions,
        epicycles_at_time released t positions
        = (C0, option_map (upd 0 C0) positions)).
Proof.
  unfold fourier_result_free.
  destruct result as [r|]; cbn [fst snd].
  - destruct (coefficients r) as [cs|] eqn:E; cbn [fst snd coefficients].
    + split; [reflexivity|]. split.
      * split; [intros _; now exists r, cs | reflexivity].
      * split; [reflexivity|]. reflexivity.
    + rewrite E. split; [reflexivity|]. split.
      * split; [discriminate|]. intros (r' & cs & [= <-] & H). congruence.
      * split.
        -- intros r' [= <-] Hwf. unfold result_wf in Hwf. rewrite E in Hwf.
           destruct r as [co n]. simpl in *. subst. reflexivity.
        -- intros t positions. unfold epicycles_at_time. now rewrite E.
  - split; [reflexivity|]. split.
    + split; [discriminate|]. intros (r & cs & H & _). discriminate.
    + split; [discriminate | reflexivity].
Qed.

(** ** The callers *)

Lemma limit_epicycles_min n_epicycles n_points :
  limit_epicycles n_epicycles n_points = Nat.min n_epicycles (n_points / 2).
Proof.
  unfold limit_epicycles.
  destruct (Nat.ltb_spec (n_points / 2) n_epicycles); lia.
Qed.

Lemma half_le n : (n / 2 <= n)%nat.
Proof. apply Nat.Div0.div_le_upper_bound. lia. Qed.

(** The analysis that [init_painting] runs keeps at most half as many
    epicycles as there are points, and at most 150.  A drawing of a single
    point asks for no epicycle at all and gets the null result, the one that
    also reports a failed allocation; from two points on a successful
    analysis returns exactly [min 150 (n / 2)] coefficients. *)
Theorem init_painting_fourier_count qsort heap points n :
  (forall cmp l, Permutation l (qsort cmp l)) ->
  let r := init_painting_fourier qsort heap points n in
  (count r <= n / 2)%nat
  /\ (count r <= EPICYCLES_PER_PAINTING)%nat
  /\ ((n < 2)%nat -> r = empty_result)
  /\ (forall buf, (2 <= n)%nat -> fft_output_buf heap = Some buf ->
        all_coeffs_ok heap = true -> result_ok heap = true ->
        count r = Nat.min EPICYCLES_PER_PAINTING (n / 2) /\ count r <> O).
Proof.
  intros Hperm r. subst r. unfold init_painting_fourier.
  rewrite limit_epicycles_min.
  set (k := Nat.min EPICYCLES_PER_PAINTING (n / 2)).
  pose proof (half_le n) as Hhalf.
  assert (Hcount : (count (fourier_analyze qsort heap points n k) <= k)%nat).
  { destruct (coefficients (fourier_analyze qsort heap points n k)) as [cs|] eqn:E.
    - destruct (fourier_analyze_some _ _ _ _ _ _ E) as (buf & _ & _ & _ & -> & _). lia.
    - pose proof (fourier_analyze_wf qsort heap points n k Hperm) as Hwf.
      unfold result_wf in Hwf. rewrite E in Hwf. lia. }
  split; [unfold k in *; lia|]. split; [unfold k in *; lia|]. split.
  - intros Hn. apply fourier_analyze_degenerate. right.
    unfold k. assert (n / 2 = 0)%nat by (apply Nat.div_small; lia). lia.
  - intros buf Hn Hbuf Hall Hres.
    assert (1 <= n / 2)%nat by (apply Nat.div_le_lower_bound; lia).
    assert (1 <= k)%nat by (unfold k, EPICYCLES_PER_PAINTING; lia).
    rewrite (fourier_analyze_success qsort heap points n k buf) by (auto; lia).
    cbn [count]. unfold k in *. lia.
Qed.

Lemma init_painting_fourier_count_witness :
  let r := init_painting_fourier insertion_sort
             (mkAllocations (Some [C0; C0; C0; C0]) true true)
             [C1; Ci; C0; C1] 4 in
  (count r <= 4 / 2)%nat
  /\ (count r <= EPICYCLES_PER_PAINTING)%nat
  /\ ((4 < 2)%nat -> r = empty_result)
  /\ (forall buf, (2 <= 4)%nat ->
        fft_output_buf (mkAllocations (Some [C0; C0; C0; C0]) true true) = Some buf ->
        all_coeffs_ok (mkAllocations (Some [C0; C0; C0; C0]) true true) = true ->
        result_ok (mkAllocations (Some [C0; C0; C0; C0]) true true) = true ->
        count r = Nat.min EPICYCLES_PER_PAINTING (4 / 2) /\ count r <> O).
Proof.
  apply (init_painting_fourier_count insertion_sort
           (mkAllocations (Some [C0; C0; C0; C0]) true true) [C1; Ci; C0; C1] 4).
  intros cmp l. apply insertion_sort_perm.
Defined.

(** ** The polar utilities of [mathlib.h] *)

Lemma complex_from_polar_eq r theta :
  complex_from_polar r theta = ((r * cos theta)%R, (r * sin theta)%R).
Proof.
  unfold complex_from_polar. rewrite cexp_imag.
  apply Ceq; cunfold; simpl; ring.
Qed.

Lemma cabs_polar r theta : cabs ((r * cos theta)%R, (r * sin theta)%R) = Rabs r.
Proof.
  unfold cabs. cbn [fst snd].
  replace (r * cos theta * (r * cos theta) + r * sin theta * (r * sin theta))%R
    with (r² * ((sin theta)² + (cos theta)²))%R by (unfold Rsqr; ring).
  now rewrite sin2_cos2, Rmult_1_r, sqrt_Rsqr_abs.
Qed.

Lemma atan2_polar_angle r theta :
  (0 < r)%R -> (- PI < theta < PI)%R ->
  atan2 (r * sin theta) (r * cos theta) = theta.
Proof.
  intros Hr [Hlo Hhi]. pose proof PI_RGT_0 as Hpi.
  assert (Hquot : (cos theta <> 0 ->
                   r * sin theta / (r * cos theta) = sin theta / cos theta)%R)
    by (intros; field; split; lra).
  unfold atan2.
  destruct (Rtotal_order theta (PI / 2)) as [Hlt | [Heq | Hgt]].
  - destruct (Rtotal_order theta (- (PI / 2))) as [Hlt' | [Heq' | Hgt']].
    + (* -pi < theta < -pi/2 *)
      assert (Hc : (cos theta < 0)%R).
      { rewrite <- cos_neg. apply cos_lt_0; lra. }
      assert (Hs : (sin theta < 0)%R) by (apply sin_lt_0_var; lra).
      destruct (Rlt_dec 0 (r * cos theta)); [nra|].
      destruct (Rlt_dec (r * cos theta) 0); [|nra].
      destruct (Rle_dec 0 (r * sin theta)); [nra|].
      rewrite Hquot by lra.
      replace (sin theta / cos theta)%R with (tan (theta + PI))
        by (unfold tan; rewrite neg_sin, neg_cos; field; lra).
      rewrite atan_tan by lra. ring.
    + (* theta = -pi/2 *)
      subst theta. rewrite cos_neg, sin_neg, cos_PI2, sin_PI2.
      repeat match goal with
             | |- context [Rlt_dec ?a ?b] => destruct (Rlt_dec a b)
             end; lra.
    + (* -pi/2 < theta < pi/2 *)
      assert (Hc : (0 < cos theta)%R) by (apply cos_gt_0; lra).
      destruct (Rlt_dec 0 (r * cos theta)); [|nra].
      rewrite Hquot by lra. fold (tan theta). apply atan_tan. lra.
  - (* theta = pi/2 *)
    subst theta. rewrite cos_PI2, sin_PI2.
    destruct (Rlt_dec 0 (r * 0)); [lra|].
    destruct (Rlt_dec (r * 0) 0); [lra|].
    destruct (Rlt_dec 0 (r * 1)); [reflexivity | lra].
  - (* pi/2 < theta < pi *)
    assert (Hc : (cos theta < 0)%R) by (apply cos_lt_0; lra).
    assert (Hs : (0 <= sin theta)%R) by (apply sin_ge_0; lra).
    destruct (Rlt_dec 0 (r * cos theta)); [nra|].
    destruct (Rlt_dec (r * cos theta) 0); [|nra].
    destruct (Rle_dec 0 (r * sin theta)); [|nra].
    rewrite Hquot by lra.
    replace (sin theta / cos theta)%R with (tan (theta - PI))
      by (unfold tan; rewrite sin_minus, cos_minus, cos_PI, sin_PI; field; lra).
    rewrite atan_tan by lra. ring.
Qed.

(** [complex_abs] and [complex_arg] are the polar coordinates that
    [complex_from_polar] takes: the three utilities round-trip.  The angle
    is recovered for a positive radius and an angle strictly between [-pi]
    and [pi], away from the branch cut; nothing is stated of the argument
    of a zero. *)
Theorem complex_polar_round_trip (z : C) (r theta : R) :
  complex_from_polar (complex_abs z) (complex_arg z) = z
  /\ complex_abs (complex_from_polar r theta) = Rabs r
  /\ ((0 < r)%R -> (- PI < theta < PI)%R ->
      complex_arg (complex_from_polar r theta) = theta).
Proof.
  split; [|split].
  - unfold complex_from_polar, complex_abs, complex_arg.
    rewrite cexp_imag. apply carg_polar.
  - unfold complex_abs. rewrite complex_from_polar_eq. apply cabs_polar.
  - intros Hr Htheta. unfold complex_arg, carg.
    rewrite complex_from_polar_eq. cbn [fst snd].
    now apply atan2_polar_angle.
Qed.

(** ** The analysis of a circle *)

Lemma cabs_RtoC r : (0 <= r)%R -> cabs (RtoC r) = r.
Proof.
  intros Hr. unfold cabs, RtoC. cbn [fst snd].
  replace (r * r + 0 * 0)%R with (r * r)%R by ring. now apply sqrt_square.
Qed.

Lemma carg_RtoC r : (0 < r)%R -> carg (RtoC r) = 0%R.
Proof.
  intros Hr. unfold carg, atan2, RtoC. cbn [fst snd].
  destruct (Rlt_dec 0 r); [|lra].
  replace (0 / r)%R with 0%R by (unfold Rdiv; ring). apply atan_0.
Qed.

(** The [n] points [radius * exp (2 pi i j / n)] of a circle, [2 <= n] and
    [n < 2 ^ 31], are analysed, with one requested coefficient, into the
    single epicycle of amplitude [radius], frequency 1 and phase 0, and its
    reconstruction retraces the circle: the tip at time [t] is
    [radius * exp (i t)]. *)
Theorem circle_analysis qsort heap pts n radius buf :
  (forall cmp l, Permutation l (qsort cmp l)) ->
  (forall l, Sorted (fun a b => (compare_coeffs_by_amplitude a b <= 0)%Z)
               (qsort compare_coeffs_by_amplitude l)) ->
  (2 <= n)%nat -> (Z.of_nat n < 2 ^ 31)%Z -> (0 < radius)%R ->
  length pts = n ->
  (forall j, (j < n)%nat ->
     get pts j = (RtoC radius * expi (2 * PI * INR j / INR n))%C) ->
  fft_output_buf heap = Some buf -> length buf = n ->
  all_coeffs_ok heap = true -> result_ok heap = true ->
  let r := fourier_analyze qsort heap pts n 1 in
  r = {| coefficients := Some [{| amplitude := radius; frequency := 1; phase := 0 |}];
         count := 1 |}
  /\ forall t positions,
       fst (epicycles_at_time (Some r) t positions) = complex_from_polar radius t.
Proof.
  intros Hperm Hsorted Hn Hbound Hrad Hlp Hgp Hbuf Hlen Hall Hres.
  destruct (fft_spec_bounded pts n buf Hlen Hbound) as [_ Hfft].
  assert (Hspec : forall k, (k < n)%nat ->
             get (fft pts n buf) k = if (k =? 1)%nat then RtoC radius else C0).
  { intros k Hk. rewrite (Hfft k Hk). apply tone_formula; [lia | exact Hk |].
    intros j Hj. rewrite (Hgp j Hj). do 2 f_equal.
    simpl INR. unfold Rdiv. ring. }
  set (spectrum := fft pts n buf) in *.
  set (all := map (extract_coeff spectrum n) (seq 0 n)).
  set (sorted := qsort compare_coeffs_by_amplitude all).
  set (e1 := extract_coeff spectrum n 1).
  assert (He1 : e1 = {| amplitude := radius; frequency := 1; phase := 0 |}).
  { unfold e1, extract_coeff. rewrite (Hspec 1%nat) by lia. cbn [Nat.eqb].
    rewrite cabs_RtoC, carg_RtoC by lra.
    assert (H1 : (1 <=? n / 2)%nat = true).
    { apply Nat.leb_le. apply Nat.div_le_lower_bound; lia. }
    rewrite H1. reflexivity. }
  assert (Hamp : forall i, (i < n)%nat -> i <> 1%nat ->
             amplitude (extract_coeff spectrum n i) = 0%R).
  { intros i Hi Hne. unfold extract_coeff. cbn [amplitude].
    rewrite (Hspec i Hi). destruct (Nat.eqb_spec i 1); [contradiction|].
    unfold C0. rewrite cabs_RtoC; lra. }
  assert (Hss : StronglySorted Rge (map amplitude sorted)).
  { apply (Sorted_StronglySorted Rge_transitive).
    apply (Sorted_map_impl (fun a b => (compare_coeffs_by_amplitude a b <= 0)%Z)).
    - intros a b. apply compare_coeffs_le.
    - apply Hsorted. }
  assert (Hin1 : In e1 sorted).
  { apply (Permutation_in _ (Hperm _ all)). unfold all, e1.
    apply in_map, in_seq. lia. }
  assert (Hhd : exists tl, sorted = e1 :: tl).
  { destruct sorted as [|hd tl] eqn:Es; [destruct Hin1|]. exists tl. f_equal.
    assert (Hinhd : In hd all).
    { apply (Permutation_in _ (Permutation_sym (Hperm compare_coeffs_by_amplitude all))).
      fold sorted. rewrite Es. now left. }
    apply in_map_iff in Hinhd. destruct Hinhd as (i & Hi & Hrange).
    apply in_seq in Hrange.
    destruct (Nat.eq_dec i 1) as [-> | Hne]; [symmetry; exact Hi|exfalso].
    assert (Hzero : amplitude hd = 0%R) by (rewrite <- Hi; apply Hamp; lia).
    destruct Hin1 as [-> | Hintl].
    - rewrite He1 in Hzero. simpl in Hzero. lra.
    - simpl in Hss. inversion Hss as [|? ? _ Hall']; subst.
      rewrite Forall_forall in Hall'.
      specialize (Hall' (amplitude e1) (in_map amplitude _ _ Hintl)).
      rewrite Hzero, He1 in Hall'. simpl in Hall'. lra. }
  destruct Hhd as [tl Htl].
  assert (Hr : fourier_analyze qsort heap pts n 1
               = {| coefficients := Some [e1]; count := 1 |}).
  { rewrite (fourier_analyze_success qsort heap pts n 1 buf) by (auto; lia).
    fold spectrum all sorted. rewrite Htl.
    replace (Nat.min 1 n) with 1%nat by lia. reflexivity. }
  cbv zeta. rewrite Hr, He1. split; [reflexivity|].
  intros t positions. unfold epicycles_at_time. cbn [coefficients count Nat.eqb].
  rewrite epicycles_tip_only. unfold partial_sum. cbn [Csum nth].
  unfold contribution, complex_from_polar. cbn [amplitude phase frequency].
  rewrite cexp_imag, Cadd_0_l. do 2 f_equal. ring.
Qed.

Lemma circle_analysis_witness :
  let r := fourier_analyze insertion_sort (mkAllocations (Some [C0; C0]) true true)
                           [C1; RtoC (-1)] 2 1 in
  r = {| coefficients := Some [{| amplitude := 1; frequency := 1; phase := 0 |}];
         count := 1 |}
  /\ forall t positions,
       fst (epicycles_at_time (Some r) t positions) = complex_from_polar 1 t.
Proof.
  apply (circle_analysis insertion_sort (mkAllocations (Some [C0; C0]) true true)
           [C1; RtoC (-1)] 2 1 [C0; C0]); try reflexivity; try lia; try lra.
  - intros cmp l. apply insertion_sort_perm.
  - intros l. apply insertion_sort_sorted. exact compare_coeffs_total.
  - intros j Hj. rewrite Cmul_1_l. destruct j as [|[|j]]; [| |lia].
    + replace (2 * PI * INR 0 / INR 2)%R with 0%R
        by (simpl INR; unfold Rdiv; ring).
      now rewrite expi_0.
    + replace (2 * PI * INR 1 / INR 2)%R with PI by (simpl INR; field).
      unfold expi. now rewrite cos_PI, sin_PI.
Defined.

(** ** The path loaders *)

Lemma fread_some size file :
  (size <= length file)%nat -> fread size file = Some (firstn size file, skipn size file).
Proof. intros H. unfold fread. apply Nat.leb_le in H. now rewrite H. Qed.

Lemma fread_none size file : (length file < size)%nat -> fread size file = None.
Proof. intros H. unfold fread. apply Nat.leb_gt in H. now rewrite H. Qed.

Lemma point_of_parts re im : (RtoC re + Ci * RtoC im)%C = (re, im).
Proof. apply Ceq; cunfold; simpl; ring. Qed.

Lemma read_points_ok dbl todo i file points :
  (i + todo <= length points)%nat -> (16 * todo <= length file)%nat ->
  exists pts,
    read_points dbl todo i file points = Some pts
    /\ length pts = length points
    /\ (forall j, (j < i)%nat -> get pts j = get points j)
    /\ forall j, (j < todo)%nat ->
         get pts (i + j)
         = (dbl (firstn 8 (skipn (16 * j) file)),
            dbl (firstn 8 (skipn (16 * j + 8) file))).
Proof.
  revert i file points. induction todo as [|todo IH]; intros i file points Hi Hf.
  - exists points. simpl. repeat split; auto. intros j Hj. lia.
  - cbn [read_points].
    rewrite fread_some by lia.
    rewrite fread_some by (rewrite length_skipn; lia).
    rewrite skipn_skipn. cbn [Nat.add].
    set (v := (RtoC (dbl (firstn 8 file))
               + Ci * RtoC (dbl (firstn 8 (skipn 8 file))))%C).
    destruct (IH (S i) (skipn 16 file) (upd i v points)) as (pts & Hr & Hl & Hlow & Hget).
    { rewrite length_upd. lia. }
    { rewrite length_skipn. lia. }
    exists pts. split; [exact Hr|]. rewrite length_upd in Hl.
    split; [exact Hl|]. split.
    + intros j Hj. rewrite Hlow by lia. apply get_upd_neq. lia.
    + intros [|j] Hj.
      * rewrite Nat.add_0_r, Hlow by lia. rewrite get_upd_eq by lia.
        unfold v. rewrite point_of_parts. reflexivity.
      * replace (i + S j)%nat with (S i + j)%nat by lia.
        rewrite Hget by lia. rewrite !skipn_skipn.
        replace (16 * j + 16)%nat with (16 * S j)%nat by lia.
        replace (16 * j + 8 + 16)%nat with (16 * S j + 8)%nat by lia.
        reflexivity.
Qed.

Lemma read_points_truncated dbl todo i file points :
  (length file < 16 * todo)%nat -> read_points dbl todo i file points = None.
Proof.
  revert i file points. induction todo as [|todo IH]; intros i file points Hf; [lia|].
  cbn [read_points].
  destruct (Nat.lt_ge_cases (length file) 8) as [H8 | H8].
  - now rewrite fread_none.
  - rewrite fread_some by lia.
    destruct (Nat.lt_ge_cases (length file) 16) as [H16 | H16].
    + rewrite fread_none; [reflexivity|]. rewrite length_skipn. lia.
    + rewrite fread_some by (rewrite length_skipn; lia).
      apply IH. rewrite skipn_skipn, length_skipn. lia.
Qed.

(** [load_path_binary] returns all the points that the header announces or
    none: with a count of [count > 0] in the first four bytes and at least
    [16 * count] bytes after them, the result holds [count] points, point
    [i] read from the bytes [4 + 16 i] and following, and [*n_points] is
    [count]; a file that is shorter, a count of zero, a file that cannot be
    opened and a failed allocation all give a null pointer. *)
Theorem load_path_binary_all_or_nothing
        (uint32_of_bytes : list byte -> nat) (double_of_bytes : list byte -> R)
        (file : list byte) (buffer : list C) :
  let count := uint32_of_bytes (firstn 4 file) in
  length buffer = count ->
  ((4 <= length file)%nat -> count <> O -> (4 + 16 * count <= length file)%nat ->
   exists points,
     load_path_binary uint32_of_bytes double_of_bytes (Some file) (Some buffer)
     = Some (points, count)
     /\ length points = count
     /\ forall i, (i < count)%nat ->
          get points i
          = (double_of_bytes (firstn 8 (skipn (4 + 16 * i) file)),
             double_of_bytes (firstn 8 (skipn (4 + 16 * i + 8) file))))
  /\ ((length file < 4)%nat \/ count = O \/ (length file < 4 + 16 * count)%nat ->
      load_path_binary uint32_of_bytes double_of_bytes (Some file) (Some buffer)
      = None)
  /\ load_path_binary uint32_of_bytes double_of_bytes None (Some buffer) = None
  /\ load_path_binary uint32_of_bytes double_of_bytes (Some file) None = None.
Proof.
  intros count Hbuf. split; [|split; [|split]].
  - intros H4 Hc Hlen. unfold load_path_binary.
    rewrite fread_some by exact H4. fold count.
    destruct (Nat.eqb_spec count 0); [contradiction|].
    destruct (read_points_ok double_of_bytes count 0 (skipn 4 file) buffer)
      as (pts & Hr & Hl & _ & Hget); [lia | rewrite length_skipn; lia |].
    rewrite Hr. exists pts. split; [reflexivity|]. split; [lia|].
    intros i Hi. specialize (Hget i Hi). cbn [Nat.add] in Hget.
    rewrite Hget, !skipn_skipn.
    replace (16 * i + 4)%nat with (4 + 16 * i)%nat by lia.
    replace (16 * i + 8 + 4)%nat with (4 + 16 * i + 8)%nat by lia.
    reflexivity.
  - intros H. unfold load_path_binary.
    destruct (Nat.lt_ge_cases (length file) 4) as [H4 | H4];
      [now rewrite fread_none|].
    rewrite fread_some by exact H4. fold count.
    destruct (Nat.eqb_spec count 0); [reflexivity|].
    rewrite read_points_truncated; [reflexivity|].
    rewrite length_skipn. lia.
  - reflexivity.
  - unfold load_path_binary. destruct (fread 4 file) as [[cb f1]|]; [|reflexivity].
    destruct (uint32_of_bytes cb =? 0)%nat; reflexivity.
Qed.

Lemma load_path_binary_all_or_nothing_witness :
  exists points,
    load_path_binary le_uint32 (fun _ => 1%R)
      (Some (["001"; "000"; "000"; "000"] ++ repeat "000" 16)%byte) (Some [C0])
    = Some (points, 1%nat)
    /\ length points = 1%nat.
Proof.
  destruct (load_path_binary_all_or_nothing le_uint32 (fun _ => 1%R)
              (["001"; "000"; "000"; "000"] ++ repeat "000" 16)%byte [C0] eq_refl)
    as [H _].
  destruct H as (points & Hload & Hlen & _).
  - vm_compute. lia.
  - vm_compute. discriminate.
  - vm_compute. lia.
  - exists points. split; assumption.
Defined.

Lemma fgets_line_spec room file :
  fst (fgets_line room file) ++ snd (fgets_line room file) = file
  /\ ((0 < room)%nat -> file <> [] -> fst (fgets_line room file) <> []).
Proof.
  revert file. induction room as [|room IH]; intros file.
  - simpl. split; [reflexivity | lia].
  - destruct file as [|c rest]; [split; [reflexivity | congruence]|].
    cbn [fgets_line]. destruct (Byte.eqb c "010"%byte).
    + split; [reflexivity | discriminate].
    + destruct (IH rest) as [Hcat _].
      destruct (fgets_line room rest) as [line rest']. cbn [fst snd] in *.
      split; [now rewrite <- Hcat | discriminate].
Qed.

Lemma fgets_spec size file line rest :
  (1 < size)%nat ->
  fgets size file = Some (line, rest) ->
  line ++ rest = file /\ line <> [] /\ (length rest < length file)%nat.
Proof.
  intros Hs. unfold fgets. destruct file as [|c f]; [discriminate|].
  remember (size - 1)%nat as room eqn:Hroom.
  intros H.
  destruct (fgets_line_spec room (c :: f)) as [Hcat Hne].
  assert (Hpair : fgets_line room (c :: f) = (line, rest)) by congruence.
  rewrite Hpair in Hcat, Hne. cbn [fst snd] in *.
  assert (Hl : line <> []) by (apply Hne; [lia | discriminate]).
  split; [exact Hcat|]. split; [exact Hl|].
  rewrite <- Hcat, length_app. destruct line; [contradiction | simpl; lia].
Qed.

(** The lines that [fgets] delivers make up the whole file. *)
Lemma file_lines_concat fuel file :
  (length file <= fuel)%nat -> concat (file_lines fuel file) = file.
Proof.
  revert file. induction fuel as [|fuel IH]; intros file Hf.
  - destruct file; [reflexivity | simpl in Hf; lia].
  - cbn [file_lines]. destruct (fgets 256 file) as [[line rest]|] eqn:E.
    + destruct (fgets_spec 256 _ _ _ ltac:(lia) E) as (Hcat & _ & Hlt).
      cbn [concat]. rewrite IH by lia. exact Hcat.
    + unfold fgets in E. destruct file; [reflexivity | discriminate].
Qed.

Lemma count_lines_spec fuel file count :
  count_lines fuel file count
  = (count + length (filter is_data_line (file_lines fuel file)))%nat.
Proof.
  revert file count. induction fuel as [|fuel IH]; intros file count.
  - simpl. lia.
  - cbn [count_lines file_lines].
    destruct (fgets 256 file) as [[line rest]|]; [|simpl; lia].
    rewrite IH. cbn [filter]. destruct (is_data_line line); simpl; lia.
Qed.

Lemma read_lines_spec sscanf fuel file i count points :
  (i + length (filter is_data_line (file_lines fuel file)) <= count)%nat ->
  (count <= length points)%nat ->
  exists pts,
    read_lines sscanf fuel file i count points
    = ((i + length (parsed_points sscanf (file_lines fuel file)))%nat, pts)
    /\ length pts = length points
    /\ (forall j, (j < i)%nat -> get pts j = get points j)
    /\ forall j, (j < length (parsed_points sscanf (file_lines fuel file)))%nat ->
         get pts (i + j) = nth j (parsed_points sscanf (file_lines fuel file)) C0.
Proof.
  revert file i points.
  induction fuel as [|fuel IH]; intros file i points Hcount Hlen.
  - exists points. simpl. rewrite Nat.add_0_r.
    repeat split; auto. intros j Hj. lia.
  - cbn [read_lines file_lines] in *.
    destruct (fgets 256 file) as [[line rest]|].
    2:{ exists points. simpl. rewrite Nat.add_0_r.
        repeat split; auto. intros j Hj. lia. }
    unfold parsed_points in *. cbn [filter] in *.
    destruct (is_data_line line) eqn:Ed; cbn [negb].
    + cbn [length] in Hcount.
      assert (Hi : (i <? count)%nat = true) by (apply Nat.ltb_lt; lia).
      rewrite Hi. cbn [flat_map].
      destruct (sscanf line) as [[re im]|].
      * destruct (IH rest (S i) (upd i (RtoC re + Ci * RtoC im)%C points))
          as (pts & Hr & Hl & Hlow & Hget);
          [lia | rewrite length_upd; lia |].
        exists pts. rewrite Hr. cbn [app length].
        split; [f_equal; lia|]. rewrite length_upd in Hl.
        split; [exact Hl|]. split.
        -- intros j Hj. rewrite Hlow by lia. apply get_upd_neq. lia.
        -- intros [|j] Hj.
           ++ rewrite Nat.add_0_r, Hlow by lia.
              rewrite get_upd_eq by lia. apply point_of_parts.
           ++ replace (i + S j)%nat with (S i + j)%nat by lia.
              cbn [nth]. apply Hget. lia.
      * cbn [app]. apply IH; lia.
    + destruct (Nat.ltb_spec i count) as [Hi | Hi].
      * apply IH; lia.
      * assert (Hnil : filter is_data_line (file_lines fuel rest) = []).
        { destruct (filter is_data_line (file_lines fuel rest));
            [reflexivity | simpl in Hcount; lia]. }
        rewrite Hnil. exists points. simpl. rewrite Nat.add_0_r.
        repeat split; auto. intros j Hj. lia.
Qed.

Lemma parsed_points_length sscanf lines :
  (length (parsed_points sscanf lines) <= length (filter is_data_line lines))%nat.
Proof.
  unfold parsed_points.
  induction (filter is_data_line lines) as [|l d IH]; [simpl; lia|].
  cbn [flat_map]. rewrite length_app.
  destruct (sscanf l); cbn [length Nat.add].
  - apply le_n_S, IH.
  - apply le_S, IH.
Qed.

(** [load_path_text] splits the file into the lines that [fgets] delivers
    (nothing is lost), keeps those that do not start with a newline or with
    [#], and returns the points of the lines that [sscanf] converts, in the
    order of the file, none dropped.  Without any data line the result is a
    null pointer; with data lines of which none converts it is an array
    with [*n_points = 0]. *)
Theorem load_path_text_points (sscanf_point : list byte -> option (R * R))
        (file : list byte) (buffer : list C) :
  let lines := file_lines (length file) file in
  let data := filter is_data_line lines in
  let parsed := parsed_points sscanf_point lines in
  length buffer = length data ->
  concat lines = file
  /\ (data = [] ->
      load_path_text sscanf_point (Some file) (Some buffer) = None)
  /\ (data <> [] ->
      exists points,
        load_path_text sscanf_point (Some file) (Some buffer)
        = Some (points, length parsed)
        /\ length points = length data
        /\ (length parsed <= length data)%nat
        /\ firstn (length parsed) points = parsed)
  /\ load_path_text sscanf_point None (Some buffer) = None
  /\ load_path_text sscanf_point (Some file) None = None.
Proof.
  intros lines data parsed Hbuf.
  assert (Hc : count_lines (length file) file 0 = length data).
  { rewrite count_lines_spec. reflexivity. }
  split; [apply file_lines_concat; lia|].
  split; [|split; [|split]].
  - intros Hd. unfold load_path_text. rewrite Hc, Hd. reflexivity.
  - intros Hd. unfold load_path_text. rewrite Hc.
    destruct (Nat.eqb_spec (length data) 0) as [Hz | Hnz].
    { destruct data; [contradiction | discriminate]. }
    destruct (read_lines_spec sscanf_point (length file) file 0 (length data) buffer)
      as (pts & Hr & Hl & _ & Hget); [fold lines data; lia | lia |].
    fold lines parsed in Hr, Hget. rewrite Hr. cbn [Nat.add].
    assert (Hle : (length parsed <= length data)%nat)
      by apply parsed_points_length.
    exists pts. split; [reflexivity|]. split; [lia|]. split; [exact Hle|].
    apply (nth_ext _ _ C0 C0).
    + rewrite length_firstn. lia.
    + intros j Hj. rewrite length_firstn in Hj.
      rewrite nth_firstn_lt by lia. apply (Hget j). lia.
  - reflexivity.
  - unfold load_path_text.
    destruct (count_lines (length file) file 0 =? 0)%nat; reflexivity.
Qed.

Lemma load_path_text_points_witness :
  exists points,
    load_path_text (fun _ => Some (1%R, 2%R))
      (Some ["#"; "010"; "1"; ","; "2"; "010"; "010"; "3"]%byte) (Some [C0; C0])
    = Some (points, 2%nat)
    /\ firstn 2 points = [(1%R, 2%R); (1%R, 2%R)].
Proof.
  destruct (load_path_text_points (fun _ => Some (1%R, 2%R))
              ["#"; "010"; "1"; ","; "2"; "010"; "010"; "3"]%byte [C0; C0] eq_refl)
    as (_ & _ & H & _).
  destruct H as (points & Hload & _ & _ & Hfirst); [discriminate|].
  exists points. split; assumption.
Defined.

(** ** Energy and size *)

Lemma Cmul_conj z : (z * Cconj z)%C = RtoC (cabs z * cabs z).
Proof.
  destruct z as [x y]. unfold cabs. cbn [fst snd].
  rewrite sqrt_sqrt by nra. apply Ceq; cunfold; simpl; ring.
Qed.

Lemma energy_Csum l :
  RtoC (energy l) = Csum (fun i => get l i * Cconj (get l i))%C (length l).
Proof.
  unfold get. rewrite (Csum_nth (fun z => z * Cconj z)%C C0 l).
  unfold energy, Csum_list.
  induction l as [|z l IH]; [reflexivity|].
  cbn [fold_right map]. rewrite <- IH, Cmul_conj.
  apply Ceq; cunfold; simpl; ring.
Qed.

Lemma Cconj_dft_formula x n k :
  Cconj (dft_formula x n k)
  = (RtoC (1 / INR n)
     * Csum (fun l => Cconj (get x l) * expi (2 * PI * INR k * INR l / INR n)) n)%C.
Proof.
  unfold dft_formula. rewrite Cconj_mul, Cconj_sum.
  f_equal; [cring|]. apply Csum_ext. intros l _.
  rewrite Cconj_mul. f_equal.
  replace (-2 * PI * INR l * INR k / INR n)%R
    with (- (2 * PI * INR k * INR l / INR n))%R by (unfold Rdiv; ring).
  rewrite expi_neg. cring.
Qed.

(** Parseval's relation for the normalized transform: the energy of the
    spectrum is the energy of the samples divided by [n], for
    [n < 2 ^ 31]. *)
Theorem fft_energy (x output : list C) (n : nat) :
  length x = n -> length output = n -> (Z.of_nat n < 2 ^ 31)%Z ->
  energy (fft x n output) = (energy x / INR n)%R.
Proof.
  intros Hx Hout Hbound.
  destruct (fft_spec_bounded x n output Hout Hbound) as [Hl Hget].
  set (X := fft x n output) in *.
  assert (H : RtoC (energy X) = RtoC (energy x / INR n)).
  { rewrite energy_Csum, Hl.
    rewrite (Csum_ext _
      (fun k => Csum (fun l => RtoC (1 / INR n) * Cconj (get x l)
                               * (get X k * expi (2 * PI * INR k * INR l / INR n)))%C n)).
    2:{ intros k Hk. rewrite (Hget k Hk) at 2. rewrite Cconj_dft_formula.
        rewrite (Cmul_comm (get X k)), <- Csum_mul_l, <- Csum_mul_r.
        apply Csum_ext. intros l _. cring. }
    rewrite Csum_swap.
    rewrite (Csum_ext _ (fun l => RtoC (1 / INR n) * Cconj (get x l) * get x l)%C).
    2:{ intros l Hlt. rewrite Csum_mul_l. f_equal.
        now apply (dft_inversion x X n l). }
    rewrite (Csum_ext _ (fun l => RtoC (1 / INR n) * (get x l * Cconj (get x l)))%C)
      by (intros; cring).
    rewrite Csum_mul_l. rewrite <- Hx at 2. rewrite <- energy_Csum.
    apply Ceq; cunfold; simpl; unfold Rdiv; ring. }
  now injection H.
Qed.

Lemma fft_energy_witness :
  energy (fft [C1; Ci] 2 [C0; C0]) = (energy [C1; Ci] / INR 2)%R.
Proof.
  apply (fft_energy [C1; Ci] [C0; C0] 2); reflexivity.
Defined.

Lemma cabs_triangle a b : (cabs (a + b)%C <= cabs a + cabs b)%R.
Proof.
  destruct a as [a1 a2], b as [b1 b2]. unfold cabs, Cadd. cbn [fst snd].
  set (A := (a1 * a1 + a2 * a2)%R). set (B := (b1 * b1 + b2 * b2)%R).
  assert (HA : (0 <= A)%R) by (unfold A; nra).
  assert (HB : (0 <= B)%R) by (unfold B; nra).
  pose proof (sqrt_pos A) as HsA. pose proof (sqrt_pos B) as HsB.
  assert (HS : (0 <= (a1 + b1) * (a1 + b1) + (a2 + b2) * (a2 + b2))%R).
  { pose proof (Rle_0_sqr (a1 + b1)). pose proof (Rle_0_sqr (a2 + b2)).
    unfold Rsqr in *. lra. }
  apply Rsqr_incr_0_var; [|lra].
  rewrite Rsqr_sqrt by exact HS.
  unfold Rsqr.
  replace ((sqrt A + sqrt B) * (sqrt A + sqrt B))%R
    with (sqrt A * sqrt A + sqrt B * sqrt B + 2 * (sqrt A * sqrt B))%R by ring.
  rewrite !sqrt_sqrt by assumption.
  assert (Hcs : (a1 * b1 + a2 * b2 <= sqrt A * sqrt B)%R).
  { rewrite <- sqrt_mult by assumption.
    apply Rle_trans with (Rabs (a1 * b1 + a2 * b2)); [apply Rle_abs|].
    rewrite <- sqrt_Rsqr_abs.
    apply sqrt_le_1; [apply Rle_0_sqr | now apply Rmult_le_pos |].
    pose proof (Rle_0_sqr (a1 * b2 - a2 * b1)) as Hsq.
    assert (Hid : (A * B - (a1 * b1 + a2 * b2)² = (a1 * b2 - a2 * b1)²)%R)
      by (unfold Rsqr, A, B; ring).
    lra. }
  unfold A, B in *. lra.
Qed.

Lemma cabs_contribution c t : cabs (contribution c t) = Rabs (amplitude c).
Proof.
  unfold contribution.
  replace (RtoC (amplitude c) * expi (phase c + t * frequency c))%C
    with ((amplitude c * cos (phase c + t * frequency c))%R,
          (amplitude c * sin (phase c + t * frequency c))%R)
    by (apply Ceq; cunfold; simpl; ring).
  apply cabs_polar.
Qed.

Lemma cabs_C0 : cabs C0 = 0%R.
Proof. unfold C0. apply cabs_RtoC. lra. Qed.

Lemma partial_sum_bound cs t :
  (cabs (partial_sum cs t (length cs))
   <= Rsum_list (map (fun c => Rabs (amplitude c)) cs))%R.
Proof.
  unfold partial_sum. rewrite (Csum_nth (fun c => contribution c t) coeff0 cs).
  induction cs as [|c cs IH]; cbn [map Csum_list Rsum_list fold_right].
  - rewrite cabs_C0. lra.
  - eapply Rle_trans; [apply cabs_triangle|].
    rewrite cabs_contribution. unfold Csum_list, Rsum_list in IH. lra.
Qed.

(** The tip of the reconstruction of an analysis stays within the sum of
    the amplitudes of the coefficients returned, at every time. *)
Theorem epicycles_tip_bound qsort heap points n k cs t positions :
  (forall cmp l, Permutation l (qsort cmp l)) ->
  coefficients (fourier_analyze qsort heap points n k) = Some cs ->
  (cabs (fst (epicycles_at_time (Some (fourier_analyze qsort heap points n k))
                                t positions))
   <= Rsum_list (map amplitude cs))%R.
Proof.
  intros Hperm Hcs.
  pose proof (fourier_analyze_wf qsort heap points n k Hperm) as Hwf.
  unfold result_wf in Hwf. rewrite Hcs in Hwf.
  assert (Hpos : map amplitude cs = map (fun c => Rabs (amplitude c)) cs).
  { apply map_ext_in. intros c Hc. symmetry. apply Rabs_right, Rle_ge.
    destruct (fourier_analyze_some _ _ _ _ _ _ Hcs) as (buf & _ & _ & _ & _ & Heq).
    rewrite Heq in Hc. apply In_firstn in Hc.
    apply (Permutation_in _ (Permutation_sym (Hperm _ _))) in Hc.
    apply in_map_iff in Hc. destruct Hc as (i & <- & _). apply cabs_nonneg. }
  rewrite Hpos. unfold epicycles_at_time. rewrite Hcs.
  destruct (Nat.eqb_spec (count (fourier_analyze qsort heap points n k)) 0)
    as [Hz | Hnz].
  - cbn [fst]. rewrite cabs_C0.
    clear. induction cs as [|c cs IH]; cbn [map Rsum_list fold_right]; [lra|].
    unfold Rsum_list in IH. pose proof (Rabs_pos (amplitude c)). lra.
  - rewrite epicycles_tip_only, <- Hwf. apply partial_sum_bound.
Qed.

Lemma epicycles_tip_bound_witness :
  (cabs (fst (epicycles_at_time
                (Some (fourier_analyze insertion_sort
                         (mkAllocations (Some [C0]) true true) [C1] 1 1))
                0 None))
   <= Rsum_list (map amplitude [extract_coeff (fft [C1] 1 [C0]) 1 0]))%R.
Proof.
  apply (epicycles_tip_bound insertion_sort (mkAllocations (Some [C0]) true true)
           [C1] 1 1 [extract_coeff (fft [C1] 1 [C0]) 1 0] 0 None).
  - intros cmp l. apply insertion_sort_perm.
  - reflexivity.
Defined.
